(** * Bing Image ZIP Downloader (app.py)

    A shallow embedding of the three pieces of [app.py] that carry logic:
    the name sanitizer [safe_name], the accumulation loop
    [download_until_target] and the handler of the "Download & Build ZIP"
    button, together with the properties the specification states about
    them.

    - Python [str] values are lists of Unicode code points.
    - Python [int] values are [Z]; Python [float] values are the kernel's
      binary64 floats.
    - The file system and the Bing crawler are an explicit world that is
      threaded through the loop; every call of the crawler is logged. *)

From Stdlib Require Import ZArith NArith List Bool String Ascii Lia.
From Stdlib Require Import QArith Qround Floats.
Import ListNotations.

(** ** The name sanitizer *)

Module Sanitizer.

Local Open Scope N_scope.

(** A Python string is a sequence of code points. *)
Definition codepoint := N.
Definition pystr := list codepoint.

(** An ASCII literal of the source as a Python string. *)
Definition py (s : string) : pystr := map N_of_ascii (list_ascii_of_string s).

(** [Py_UNICODE_ISSPACE]: the characters [str.strip()] removes and the
    class [\s] of a [str] pattern (bidirectional type WS, B or S, or
    category Zs).  The table is CPython's. *)
Definition is_space (c : codepoint) : bool :=
  ((0x09 <=? c) && (c <=? 0x0D)) || ((0x1C <=? c) && (c <=? 0x20))
  || (c =? 0x85) || (c =? 0xA0) || (c =? 0x1680)
  || ((0x2000 <=? c) && (c <=? 0x200A))
  || (c =? 0x2028) || (c =? 0x2029) || (c =? 0x202F) || (c =? 0x205F)
  || (c =? 0x3000).

(** [str.isalnum] on the ASCII range. *)
Definition ascii_alnum (c : codepoint) : bool :=
  ((0x30 <=? c) && (c <=? 0x39)) || ((0x41 <=? c) && (c <=? 0x5A))
  || ((0x61 <=? c) && (c <=? 0x7A)).

Definition hyphen : codepoint := 0x2D.
Definition underscore : codepoint := 0x5F.

(** [s or ""] *)
Definition or_empty (s : option pystr) : pystr :=
  match s with
  | Some x => x
  | None => []
  end.

(** [str.strip()]: leading, then trailing, whitespace is dropped. *)
Fixpoint lstrip (s : pystr) : pystr :=
  match s with
  | [] => []
  | c :: t => if is_space c then lstrip t else s
  end.

Fixpoint rstrip (s : pystr) : pystr :=
  match s with
  | [] => []
  | c :: t =>
      match rstrip t with
      | [] => if is_space c then [] else [c]
      | r => c :: r
      end
  end.

Definition strip (s : pystr) : pystr := rstrip (lstrip s).

(** [re.sub(p, repl, s)] for a pattern [p] that is one character set:
    every character of the set is replaced by [repl]. *)
Definition re_sub_set (set : codepoint -> bool) (repl s : pystr) : pystr :=
  flat_map (fun c => if set c then repl else [c]) s.

(** [re.sub(p, repl, s)] for a pattern [p] that is a character set followed
    by [+]: scanning from the left, every maximal run of characters of the
    set is replaced by one [repl].  [in_match] tells that the character
    before the head of [s] belongs to a run whose [repl] is already out. *)
Fixpoint re_sub_set_plus_from (set : codepoint -> bool) (repl : pystr)
    (in_match : bool) (s : pystr) : pystr :=
  match s with
  | [] => []
  | c :: t =>
      if set c then
        (if in_match then [] else repl) ++ re_sub_set_plus_from set repl true t
      else c :: re_sub_set_plus_from set repl false t
  end.

Definition re_sub_set_plus (set : codepoint -> bool) (repl s : pystr) : pystr :=
  re_sub_set_plus_from set repl false s.

Section Unicode.

(** [str.isalnum] beyond ASCII is a table of the Unicode database of the
    Python runtime; the development is parametric in it. *)
Variable uni_alnum : codepoint -> bool.

(** The class [\w] of a [str] pattern: alphanumeric or underscore. *)
Definition is_word (c : codepoint) : bool :=
  if c <? 0x80 then ascii_alnum c || (c =? underscore) else uni_alnum c.

(** The set [[^\w\s-]]. *)
Definition unsafe_char (c : codepoint) : bool :=
  negb (is_word c || is_space c || (c =? hyphen)).

(** The string before the fallback is applied. *)
Definition safe_core (s : option pystr) : pystr :=
  let s := strip (or_empty s) in
  let s := re_sub_set unsafe_char [] s in
  strip (re_sub_set_plus is_space (py " ") s).

Definition safe_name (s : option pystr) : pystr :=
  match safe_core s with
  | [] => py "query"
  | s => s
  end.

End Unicode.

End Sanitizer.

(** ** The sanitizer as the specification words it *)

Module SanitizerSpec.

Import Sanitizer.
Local Open Scope N_scope.

(** Trim: whitespace is dropped at the front, then at the back. *)
Definition trim (s : pystr) : pystr := rev (lstrip (rev (lstrip s))).

(** Collapse runs of whitespace to a single space: a whitespace character
    and all the whitespace that follows it become one U+0020. *)
Fixpoint collapse_fuel (fuel : nat) (s : pystr) : pystr :=
  match fuel with
  | O => s
  | S fuel =>
      match s with
      | [] => []
      | c :: t =>
          if is_space c then 0x20 :: collapse_fuel fuel (lstrip t)
          else c :: collapse_fuel fuel t
      end
  end.

Definition collapse_whitespace (s : pystr) : pystr :=
  collapse_fuel (List.length s) s.

(** A string without leading whitespace. *)
Definition no_lead (s : pystr) : bool :=
  match s with
  | [] => true
  | c :: _ => negb (is_space c)
  end.

(** Every whitespace character is a U+0020 that does not follow
    whitespace; [prev] tells whether the character before [s] is
    whitespace. *)
Fixpoint single_spaced (prev : bool) (s : pystr) : bool :=
  match s with
  | [] => true
  | c :: t =>
      if is_space c then negb prev && (c =? 0x20) && single_spaced true t
      else single_spaced false t
  end.

Section Unicode.

Variable uni_alnum : codepoint -> bool.

(** A character the sanitizer lets through. *)
Definition safe_char (c : codepoint) : bool :=
  is_word uni_alnum c || is_space c || (c =? hyphen).

(** Remove every character that is not a word character, whitespace or a
    hyphen. *)
Definition remove_unsafe (s : pystr) : pystr :=
  filter safe_char s.

Definition sanitize (s : option pystr) : pystr :=
  match trim (collapse_whitespace (remove_unsafe (trim (or_empty s)))) with
  | [] => py "query"
  | r => r
  end.

End Unicode.

End SanitizerSpec.

(** ** Python numbers *)

Module PyNum.

Local Open Scope Z_scope.

(** [float(n)] for an [int], as [int * float] converts its left operand:
    the nearest binary64 value, ties to even; [None] is [OverflowError]. *)
Definition float_of_int (n : Z) : option float :=
  match binary_normalize prec emax n 0 false with
  | S754_infinity _ => None
  | f => Some (SF2Prim f)
  end.

(** [int(x)] for a [float]: truncation toward zero; [None] is the
    [ValueError] of a NaN or the [OverflowError] of an infinity. *)
Definition int_of_float (x : float) : option Z :=
  match Prim2SF x with
  | S754_zero _ => Some 0
  | S754_finite s m e =>
      Some (cond_Zopp s
              (if 0 <=? e then Zpos m * 2 ^ e else Zpos m / 2 ^ (- e)))
  | S754_infinity _ | S754_nan => None
  end.

(** [max(1, int(target * min_fraction))], lines 49 and 129. *)
Definition min_needed (target : Z) (min_fraction : float) : option Z :=
  match float_of_int target with
  | None => None
  | Some t => option_map (Z.max 1) (int_of_float (t * min_fraction)%float)
  end.

(** The default [min_fraction = 0.66] of the signature. *)
Definition default_min_fraction : float := 0x1.51eb851eb851fp-1%float.

(** The real number a finite binary64 value stands for. *)
Definition SF2Q (f : spec_float) : Q :=
  match f with
  | S754_finite s m e =>
      let a := match e with
               | Zneg p => Qmake (Zpos m) (2 ^ p)%positive
               | _ => inject_Z (Zpos m * 2 ^ e)
               end in
      if s then Qopp a else a
  | _ => 0%Q
  end.

Definition float_value (x : float) : Q := SF2Q (Prim2SF x).

(** The threshold as the specification words it: the ceiling of
    target x min_fraction, floored to at least 1. *)
Definition min_needed_ceiling (target : Z) (min_fraction : float) : Z :=
  Z.max 1 (Qceiling (inject_Z target * float_value min_fraction)).

(** The same with the floor in place of the ceiling. *)
Definition min_needed_floor (target : Z) (min_fraction : float) : Z :=
  Z.max 1 (Qfloor (inject_Z target * float_value min_fraction)).

End PyNum.

(** ** The accumulation loop *)

Module Loop.

Import Sanitizer PyNum.
Local Open Scope Z_scope.

(** What the loop does to the outside: a scan of the download directory
    with the count it found, and a call of the crawler. *)
Inductive event :=
| Scanned (count : Z)
| Crawled (keyword : pystr) (offset max_num : Z).

(** The local variables of [download_until_target], the world and the
    events so far, oldest first. *)
Record state (World : Type) := mkState {
  offset : Z;
  last_count : Z;
  stagnant_rounds : Z;
  world : World;
  log : list event
}.
Arguments mkState {World}.
Arguments offset {World}.
Arguments last_count {World}.
Arguments stagnant_rounds {World}.
Arguments world {World}.
Arguments log {World}.

(** How one round of the [for] ends. *)
Inductive round_end (World : Type) :=
| Return (got : Z) (exact : bool) (st : state World)
| Break (st : state World)
| Continue (st : state World).
Arguments Return {World}.
Arguments Break {World}.
Arguments Continue {World}.

Section Env.

(** The download directory with the crawler behind it: [count_images]
    reads the directory, [crawl] runs one [crawler.crawl(...)]. *)
Variable World : Type.
Variable count_images : World -> Z.
Variable crawl : pystr -> Z -> Z -> World -> World.

Section Run.

Variable keyword : pystr.
Variable target : Z.
Variable min_needed : Z.
Variable round_batch_size : Z.

(** Lines 68-72: the stagnation counter and the baseline after the
    comparison of this round. *)
Definition stagnation (st : state World) (current : Z) : Z * Z :=
  if current =? last_count st then (stagnant_rounds st + 1, last_count st)
  else (0, current).

(** Line 81. *)
Definition batch_size (current : Z) : Z :=
  let remaining := target - current in
  Z.min round_batch_size (Z.max 30 (remaining * 2)).

(** The body of the [for], lines 63-89. *)
Definition round (st : state World) : round_end World :=
  let current := count_images (world st) in
  let seen := log st ++ [Scanned current] in
  if target <=? current then
    Return current true (mkState (offset st) (last_count st)
                           (stagnant_rounds st) (world st) seen)
  else
    let '(stagnant, last) := stagnation st current in
    let st1 := mkState (offset st) last stagnant (world st) seen in
    if (3 <=? stagnant) && (min_needed <=? current) then
      Return current false st1
    else if (4 <=? stagnant) && (current <? min_needed) then
      Break st1
    else
      let batch := batch_size current in
      Continue (mkState (offset st + batch) last stagnant
                  (crawl keyword (offset st) batch (world st))
                  (seen ++ [Crawled keyword (offset st) batch])).

(** Lines 91-92. *)
Definition after_loop (st : state World) : (Z * bool) * state World :=
  let final := count_images (world st) in
  ((final, target <=? final),
   mkState (offset st) (last_count st) (stagnant_rounds st) (world st)
     (log st ++ [Scanned final])).

(** The [for] with [n] rounds left, then lines 91-92. *)
Fixpoint rounds (n : nat) (st : state World) : (Z * bool) * state World :=
  match n with
  | O => after_loop st
  | S n =>
      match round st with
      | Return got exact st' => ((got, exact), st')
      | Break st' => after_loop st'
      | Continue st' => rounds n st'
      end
  end.

(** The state at the start of round [n + 1], when the loop gets there. *)
Fixpoint at_round (n : nat) (st : state World) : option (state World) :=
  match n with
  | O => Some st
  | S n =>
      match round st with
      | Continue st' => at_round n st'
      | _ => None
      end
  end.

(** Lines 58-60. *)
Definition initial (w : World) : state World := mkState 0 0 0 w [].

(** Lines 58-92: [range(1, max_rounds + 1)] has [max_rounds] rounds, none
    when [max_rounds] is negative. *)
Definition accumulate (max_rounds : Z) (w : World) : (Z * bool) * state World :=
  rounds (Z.to_nat max_rounds) (initial w).

End Run.

(** The calls of the crawler in a log: (offset, max_num), oldest first. *)
Fixpoint calls (l : list event) : list (Z * Z) :=
  match l with
  | [] => []
  | Scanned _ :: l => calls l
  | Crawled _ o b :: l => (o, b) :: calls l
  end.

(** The counts found by the scans in a log, oldest first. *)
Fixpoint scans (l : list event) : list Z :=
  match l with
  | [] => []
  | Scanned c :: l => c :: scans l
  | Crawled _ _ _ :: l => scans l
  end.

(** The counter is what it is read as: when the last k + 1 scans of the
    rounds so far found the same count, that count is the baseline and the
    counter is at least k. *)
Definition counts_repeats (st : state World) : Prop :=
  0 <= stagnant_rounds st /\
  forall pre k c,
    scans (log st) = pre ++ repeat c (S k) ->
    last_count st = c /\ Z.of_nat k <= stagnant_rounds st.

(** Every call of the crawler in a log is made with [keyword]. *)
Definition keyed (keyword : pystr) (l : list event) : Prop :=
  Forall (fun e => match e with
                   | Crawled k _ _ => k = keyword
                   | Scanned _ => True
                   end) l.

(** The counter is at most 3, and at most 2 when the last scan found the
    minimum needed. *)
Definition bounded_stagnation (min_needed : Z) (st : state World) : Prop :=
  stagnant_rounds st <= 3 /\
  forall pre c,
    scans (log st) = pre ++ [c] -> min_needed <= c -> stagnant_rounds st <= 2.

(** The sum of the batch sizes of a list of calls. *)
Definition total (cs : list (Z * Z)) : Z :=
  fold_right (fun ob acc => snd ob + acc) 0 cs.

(** Every call starts where the calls before it ended, the first at [o]. *)
Fixpoint chained (o : Z) (cs : list (Z * Z)) : Prop :=
  match cs with
  | [] => True
  | (o', b) :: r => o' = o /\ chained (o + b) r
  end.

(** Every call of the crawler in a log comes right after the scan of its
    round and asks for min(cap, max(30, (target - count) * 2)) images;
    [prev] is the count of the scan just before [l], if a scan is. *)
Fixpoint requests_sized (target cap : Z) (prev : option Z) (l : list event)
  : Prop :=
  match l with
  | [] => True
  | Scanned c :: l => requests_sized target cap (Some c) l
  | Crawled _ _ b :: l =>
      (exists c, prev = Some c /\
                 b = Z.min cap (Z.max 30 ((target - c) * 2))) /\
      requests_sized target cap None l
  end.

(** [download_until_target]; [None] when line 49 raises. *)
Definition download_until_target (keyword : pystr) (w : World) (target : Z)
    (min_fraction : float) (round_batch_size max_rounds : Z)
  : option ((Z * bool) * state World) :=
  match PyNum.min_needed target min_fraction with
  | None => None
  | Some mn => Some (accumulate keyword target mn round_batch_size max_rounds w)
  end.

End Env.

End Loop.

(** A download directory for examples: the world is the number of images
    on disk, and the crawler saves what it is asked for until the
    directory holds [supply] images. *)
Module Demo.

Local Open Scope Z_scope.

Definition count_images (w : Z) : Z := w.

Definition crawl (supply : Z) (_ : Sanitizer.pystr) (_ max_num : Z) (w : Z) : Z :=
  Z.max w (Z.min supply (w + max_num)).

End Demo.

(** ** The handler of the button *)

Module Handler.

Import Sanitizer PyNum Loop.
Local Open Scope Z_scope.

(** What a click does, in order. *)
Inductive action :=
| st_error (msg : string)
| st_stop
| downloader (e : event)
| st_warning (got min_needed : Z)
| make_zip_from_folder
| st_success (got : Z) (exact : bool)
| st_download_button (file_name : pystr)
| rmtree
| uncaught.

Definition pystr_eqb (a b : pystr) : bool :=
  if list_eq_dec N.eq_dec a b then true else false.

(** [not q or q == "query"], line 108. *)
Definition invalid_term (q : pystr) : bool :=
  match q with
  | [] => true
  | _ => pystr_eqb q (py "query")
  end.

Section Env.

Variable uni_alnum : codepoint -> bool.
Variable World : Type.
Variable count_images : World -> Z.
Variable crawl : pystr -> Z -> Z -> World -> World.

(** Lines 105-158; [w] is the freshly made download directory. *)
Definition on_click (query : pystr) (limit : Z) (min_fraction : float)
    (max_rounds : Z) (w : World) : list action :=
  let q := safe_name uni_alnum (Some query) in
  if invalid_term q then
    [st_error "Please enter a valid search term."; st_stop]
  else
    match download_until_target World count_images crawl
            q w limit min_fraction 80 max_rounds with
    | None => [rmtree; uncaught]
    | Some ((got, exact), st) =>
        map downloader (log st) ++
        match PyNum.min_needed limit min_fraction with
        | None => [rmtree; uncaught]
        | Some min_needed =>
            if got =? 0 then
              [st_error "No images were downloaded. Try a broader query.";
               st_stop; rmtree]
            else
              (if got <? min_needed then [st_warning got min_needed] else [])
              ++ [make_zip_from_folder;
                  st_success got exact;
                  st_download_button (q ++ py ".zip");
                  rmtree]
        end
    end.

End Env.

End Handler.

(** ** The download directory on disk *)

Module Files.

Import Sanitizer.
Local Open Scope N_scope.

(** A directory entry is a regular file with its bytes or a directory with
    its named entries, in the order the operating system lists them.
    Symbolic links and unreadable directories are left out. *)
#[local] Unset Elimination Schemes.
Inductive node :=
| File (data : list Byte.byte)
| Dir (entries : list (pystr * node)).
#[local] Set Elimination Schemes.

(** A path below the folder at hand, one name per component. *)
Definition path := list pystr.

Definition dot : codepoint := 0x2E.

(** [name.rfind('.')]; [None] is -1. *)
Fixpoint rfind_dot (name : pystr) : option nat :=
  match name with
  | [] => None
  | c :: t =>
      match rfind_dot t with
      | Some i => Some (S i)
      | None => if c =? dot then Some O else None
      end
  end.

(** [PurePath.suffix] of a final component, as pathlib computes it up to
    Python 3.13: [name[i:]] when [0 < i < len(name) - 1] for
    [i = name.rfind('.')], and the empty string otherwise. *)
Definition path_suffix (name : pystr) : pystr :=
  match rfind_dot name with
  | Some i =>
      if (0 <? i)%nat && (S i <? List.length name)%nat then skipn i name
      else []
  | None => []
  end.

Definition ascii_lower (c : codepoint) : codepoint :=
  if (0x41 <=? c) && (c <=? 0x5A) then c + 0x20 else c.

Definition is_ascii (c : codepoint) : bool := c <? 0x80.

(** [str.lower]: character by character on an ASCII string; on any other
    string it follows the Unicode tables of the runtime, [uni_lower]. *)
Definition str_lower (uni_lower : pystr -> pystr) (s : pystr) : pystr :=
  if forallb is_ascii s then map ascii_lower s else uni_lower s.

(** Line 32. *)
Definition exts : list pystr :=
  [py ".jpg"; py ".jpeg"; py ".png"; py ".webp"; py ".bmp"; py ".gif";
   py ".tiff"].

Definition pystr_eqb (a b : pystr) : bool :=
  if list_eq_dec N.eq_dec a b then true else false.

Definition is_file (n : node) : bool :=
  match n with
  | File _ => true
  | Dir _ => false
  end.

(** [Path.rglob("*")]: every path below a directory, with what it leads
    to; nothing below a regular file. *)
Fixpoint rglob (root : path) (n : node) : list (path * node) :=
  match n with
  | File _ => []
  | Dir es =>
      flat_map (fun e => (root ++ [fst e], snd e)
                         :: rglob (root ++ [fst e]) (snd e)) es
  end.

(** [os.walk(top)], top-down: (root, dirs, files) for a directory, then
    the walks of its sub-directories; nothing for a regular file. *)
Fixpoint os_walk (root : path) (n : node) : list (path * list pystr * list pystr) :=
  match n with
  | File _ => []
  | Dir es =>
      (root,
       map fst (filter (fun e => negb (is_file (snd e))) es),
       map fst (filter (fun e => is_file (snd e)) es))
      :: flat_map (fun e => os_walk (root ++ [fst e]) (snd e)) es
  end.

(** What a path below a node leads to; of two entries of one name the
    first is found. *)
Fixpoint lookup (n : node) (p : path) : option node :=
  match p with
  | [] => Some n
  | name :: p' =>
      match n with
      | File _ => None
      | Dir es =>
          (fix find (es : list (pystr * node)) : option node :=
             match es with
             | [] => None
             | e :: es' =>
                 if pystr_eqb (fst e) name then lookup (snd e) p'
                 else find es'
             end) es
      end
  end.

(** The first entry of a name in a directory listing. *)
Fixpoint find_entry (es : list (pystr * node)) (name : pystr) : option node :=
  match es with
  | [] => None
  | e :: es' => if pystr_eqb (fst e) name then Some (snd e) else find_entry es' name
  end.

(** The names of the sub-directories and of the files of a listing. *)
Definition dir_names (es : list (pystr * node)) : list pystr :=
  map fst (filter (fun e => negb (is_file (snd e))) es).

Definition file_names (es : list (pystr * node)) : list pystr :=
  map fst (filter (fun e => is_file (snd e)) es).

(** The bytes [z.write(fp, ...)] reads. *)
Definition read (n : node) (p : path) : list Byte.byte :=
  match lookup n p with
  | Some (File d) => d
  | _ => []
  end.

(** The names of a directory are distinct, at every level. *)
Fixpoint distinct_names (n : node) : Prop :=
  match n with
  | File _ => True
  | Dir es =>
      NoDup (map fst es) /\
      (fix all (es : list (pystr * node)) : Prop :=
         match es with
         | [] => True
         | e :: es' => distinct_names (snd e) /\ all es'
         end) es
  end.

(** The regular files below a node, with their paths, directory by
    directory. *)
Fixpoint files_of (root : path) (n : node) : list (path * list Byte.byte) :=
  match n with
  | File _ => []
  | Dir es =>
      flat_map (fun e =>
                  match snd e with
                  | File d => [(root ++ [fst e], d)]
                  | Dir _ => files_of (root ++ [fst e]) (snd e)
                  end) es
  end.

Section Runtime.

(** [PurePath.suffix] and [str.lower] of the runtime. *)
Variable suffix : pystr -> pystr.
Variable lower : pystr -> pystr.

(** [f.suffix.lower() in exts] for a path with final component [name]. *)
Definition is_image (name : pystr) : bool :=
  existsb (pystr_eqb (lower (suffix name))) exts.

(** [f.is_file() and f.suffix.lower() in exts], line 33. *)
Definition counted (f : path * node) : bool :=
  is_file (snd f) && is_image (last (fst f) []).

(** [count_images]; [None] is a folder that does not exist. *)
Definition count_images (folder : option node) : Z :=
  match folder with
  | None => 0%Z
  | Some n => Z.of_nat (List.length (filter counted (rglob [] n)))
  end.

End Runtime.

(** [make_zip_from_folder]: the entries written to the archive, in order,
    each the relative path (its components) and the bytes of a file;
    [tree] is what [folder_path] leads to. *)
Definition make_zip_from_folder (tree : option node)
  : list (path * list Byte.byte) :=
  match tree with
  | None => []
  | Some n =>
      flat_map (fun w =>
                  let '(root, _, files) := w in
                  map (fun fn => (root ++ [fn], read n (root ++ [fn]))) files)
        (os_walk [] n)
  end.

(** The entries written for the walk of the sub-tree [n] found at [root]
    below [top]. *)
Definition zip_entries (top : node) (root : path) (n : node)
  : list (path * list Byte.byte) :=
  flat_map (fun w =>
              map (fun fn => (fst (fst w) ++ [fn],
                              read top (fst (fst w) ++ [fn]))) (snd w))
    (os_walk root n).

End Files.

(** A folder for examples: one image, one note and one image in a
    sub-folder. *)
Module DemoFiles.

Import Sanitizer.

Definition demo_folder : Files.node :=
  Files.Dir
    [(py "000001.jpg", Files.File [Byte.x01]);
     (py "notes.txt", Files.File []);
     (py "more", Files.Dir [(py "000002.PNG", Files.File [Byte.x02])])].

End DemoFiles.

(** ** Shapes of strings, for the statements about the sanitizer *)

Module Shape.

Import Sanitizer SanitizerSpec.
Local Open Scope N_scope.

Section Unicode.

Variable uni_alnum : codepoint -> bool.

(** A character the sanitizer copies to its result: not whitespace, and a
    word character or a hyphen. *)
Definition kept (c : codepoint) : bool :=
  negb (is_space c) && (is_word uni_alnum c || (c =? hyphen)).

(** Characters with a meaning in a path or a file name on POSIX or
    Windows: NUL, double quote, asterisk, dot, slash, colon, the angle
    brackets, question mark, backslash and bar. *)
Definition reserved : list codepoint :=
  [0x00; 0x22; 0x2A; 0x2E; 0x2F; 0x3A; 0x3C; 0x3E; 0x3F; 0x5C; 0x7C].

(** Words of word characters and hyphens, one U+0020 between two words,
    nothing around them. *)
Definition tidy (s : pystr) : bool :=
  no_lead s && no_lead (rev s) && single_spaced false s
  && forallb (safe_char uni_alnum) s.

End Unicode.

End Shape.

(** * Properties *)

(** ** Properties of the sanitizer *)

Section SanitizerFacts.

Import Sanitizer SanitizerSpec.
Local Open Scope N_scope.

Variable uni_alnum : codepoint -> bool.

Lemma lstrip_no_lead s : no_lead (lstrip s) = true.
Proof.
  induction s as [|c t IH]; simpl; auto.
  destruct (is_space c) eqn:E; simpl; auto. now rewrite E.
Qed.

Lemma lstrip_fixed s : no_lead s = true -> lstrip s = s.
Proof.
  destruct s as [|c t]; simpl; auto.
  destruct (is_space c); simpl; [discriminate | auto].
Qed.

Lemma lstrip_length s : (List.length (lstrip s) <= List.length s)%nat.
Proof.
  induction s as [|c t IH]; simpl; auto.
  destruct (is_space c); simpl; lia.
Qed.

Lemma lstrip_all_space s : forallb is_space s = true -> lstrip s = [].
Proof.
  induction s as [|d t IH]; simpl; auto.
  destruct (is_space d); simpl; [auto | discriminate].
Qed.

Lemma lstrip_nil_all_space s : lstrip s = [] -> forallb is_space s = true.
Proof.
  induction s as [|d t IH]; simpl; auto.
  destruct (is_space d); simpl; [auto | discriminate].
Qed.

Lemma lstrip_app_all s u :
  forallb is_space s = true -> lstrip (s ++ u) = lstrip u.
Proof.
  induction s as [|d t IH]; simpl; auto.
  destruct (is_space d); simpl; [auto | discriminate].
Qed.

Lemma lstrip_app_keep s u :
  forallb is_space s = false -> lstrip (s ++ u) = lstrip s ++ u.
Proof.
  induction s as [|d t IH]; simpl; [discriminate|].
  destruct (is_space d); simpl; auto.
Qed.

(** [rstrip] is [lstrip] on the reversed string. *)
Lemma rstrip_rev s : rstrip s = rev (lstrip (rev s)).
Proof.
  induction s as [|c t IH]; simpl; auto.
  rewrite IH.
  destruct (forallb is_space (rev t)) eqn:E.
  - rewrite (lstrip_all_space _ E), (lstrip_app_all _ [c] E). simpl.
    now destruct (is_space c).
  - rewrite (lstrip_app_keep _ [c] E), rev_app_distr. simpl.
    destruct (lstrip (rev t)) as [|d u] eqn:El.
    + apply lstrip_nil_all_space in El. congruence.
    + destruct (rev (d :: u)) eqn:Er; auto.
      apply (f_equal (@List.length _)) in Er.
      rewrite length_rev in Er. discriminate.
Qed.

Lemma strip_trim s : strip s = trim s.
Proof. unfold strip, trim. apply rstrip_rev. Qed.

Lemma rstrip_fixed_again s : rstrip (rstrip s) = rstrip s.
Proof.
  induction s as [|c t IH]; simpl; auto.
  destruct (rstrip t) as [|d u] eqn:E.
  - destruct (is_space c) eqn:Ec; simpl; auto. now rewrite Ec.
  - simpl in IH |- *. cbn [rstrip]. fold (rstrip (d :: u)). now rewrite IH.
Qed.

Lemma rstrip_no_lead s : no_lead s = true -> no_lead (rstrip s) = true.
Proof.
  destruct s as [|c t]; simpl; auto.
  destruct (is_space c) eqn:Ec; simpl; [discriminate|].
  intros _. destruct (rstrip t); simpl; now rewrite Ec.
Qed.

Lemma strip_lstrip s : lstrip (strip s) = strip s.
Proof.
  apply lstrip_fixed, rstrip_no_lead, lstrip_no_lead.
Qed.

Lemma strip_rstrip s : rstrip (strip s) = strip s.
Proof. apply rstrip_fixed_again. Qed.

Lemma strip_strip s : strip (strip s) = strip s.
Proof.
  unfold strip at 1. now rewrite strip_lstrip, strip_rstrip.
Qed.

(** *** The scan is the substitution of maximal runs *)

Lemma re_sub_in_run set repl run tail :
  forallb set run = true ->
  re_sub_set_plus_from set repl true (run ++ tail) =
  re_sub_set_plus_from set repl true tail.
Proof.
  induction run as [|d run IH]; cbn; auto.
  destruct (set d); cbn; [auto | discriminate].
Qed.

(** A run of the set, up to a character outside it, becomes one [repl]. *)
Lemma re_sub_set_plus_run set repl d run c rest :
  forallb set (d :: run) = true -> set c = false ->
  re_sub_set_plus set repl ((d :: run) ++ c :: rest) =
  repl ++ c :: re_sub_set_plus set repl rest.
Proof.
  intros Hrun Hc. cbn in Hrun. apply andb_prop in Hrun as [Hd Hrun].
  unfold re_sub_set_plus. cbn. rewrite Hd, re_sub_in_run by exact Hrun.
  cbn. now rewrite Hc.
Qed.

(** So does a run at the end of the string. *)
Lemma re_sub_set_plus_last_run set repl d run :
  forallb set (d :: run) = true ->
  re_sub_set_plus set repl (d :: run) = repl.
Proof.
  intros Hrun. cbn in Hrun. apply andb_prop in Hrun as [Hd Hrun].
  unfold re_sub_set_plus. cbn. rewrite Hd.
  rewrite <- (app_nil_r run), re_sub_in_run by exact Hrun.
  cbn. apply app_nil_r.
Qed.

(** A character outside the set is kept. *)
Lemma re_sub_set_plus_keep set repl c rest :
  set c = false ->
  re_sub_set_plus set repl (c :: rest) = c :: re_sub_set_plus set repl rest.
Proof. intros Hc. unfold re_sub_set_plus. cbn. now rewrite Hc. Qed.

Example collapse_mixed_run :
  re_sub_set_plus is_space (py " ") [0x61; 0x20; 0x09; 0xA0; 0x3000; 0x62] =
  py "a b".
Proof. reflexivity. Qed.

(** *** Single spacing *)

Lemma collapse_single_spaced b s :
  single_spaced b (re_sub_set_plus_from is_space (py " ") b s) = true.
Proof.
  revert b. induction s as [|c t IH]; intros b; simpl; auto.
  destruct (is_space c) eqn:Ec.
  - destruct b; simpl; auto.
  - simpl. now rewrite Ec.
Qed.

Lemma single_spaced_fixed b s :
  single_spaced b s = true ->
  re_sub_set_plus_from is_space (py " ") b s = s.
Proof.
  revert b. induction s as [|c t IH]; intros b; simpl; auto.
  destruct (is_space c) eqn:Ec.
  - intros H. apply andb_prop in H as [H Ht]. apply andb_prop in H as [Hb Hc].
    apply N.eqb_eq in Hc. subst c.
    destruct b; [discriminate|]. simpl. now rewrite (IH true Ht).
  - intros H. now rewrite (IH false H).
Qed.

Lemma single_spaced_lstrip b b' s :
  single_spaced b s = true -> single_spaced b' (lstrip s) = true.
Proof.
  revert b. induction s as [|c t IH]; intros b; simpl; auto.
  destruct (is_space c) eqn:Ec.
  - intros H. apply andb_prop in H as [_ Ht]. eauto.
  - intros H. simpl. now rewrite Ec.
Qed.

Lemma single_spaced_cons b c t :
  single_spaced b (c :: t) =
  if is_space c then negb b && (c =? 0x20) && single_spaced true t
  else single_spaced false t.
Proof. reflexivity. Qed.

Lemma single_spaced_rstrip b s :
  single_spaced b s = true -> single_spaced b (rstrip s) = true.
Proof.
  revert b. induction s as [|c t IH]; intros b; auto.
  rewrite single_spaced_cons. cbn [rstrip].
  destruct (is_space c) eqn:Ec.
  - intros H. apply andb_prop in H as [H Ht]. specialize (IH true Ht).
    destruct (rstrip t) as [|d u]; auto.
    rewrite single_spaced_cons, Ec. now rewrite H, IH.
  - intros H. specialize (IH false H).
    destruct (rstrip t) as [|d u]; rewrite single_spaced_cons, Ec; auto.
Qed.

(** *** Safe characters *)

Lemma unsafe_safe c : unsafe_char uni_alnum c = negb (safe_char uni_alnum c).
Proof. reflexivity. Qed.

Lemma re_sub_unsafe_filter s :
  re_sub_set (unsafe_char uni_alnum) [] s = remove_unsafe uni_alnum s.
Proof.
  unfold re_sub_set, remove_unsafe.
  induction s as [|c t IH]; simpl; auto.
  rewrite unsafe_safe, IH. now destruct (safe_char uni_alnum c).
Qed.

Lemma remove_unsafe_safe s :
  forallb (safe_char uni_alnum) (remove_unsafe uni_alnum s) = true.
Proof.
  unfold remove_unsafe. induction s as [|c t IH]; simpl; auto.
  destruct (safe_char uni_alnum c) eqn:E; simpl; auto. now rewrite E.
Qed.

Lemma remove_unsafe_fixed s :
  forallb (safe_char uni_alnum) s = true -> remove_unsafe uni_alnum s = s.
Proof.
  unfold remove_unsafe. induction s as [|c t IH]; simpl; auto.
  intros H. apply andb_prop in H as [Hc Ht]. now rewrite Hc, IH.
Qed.

Lemma collapse_safe b s :
  forallb (safe_char uni_alnum) s = true ->
  forallb (safe_char uni_alnum)
    (re_sub_set_plus_from is_space (py " ") b s) = true.
Proof.
  revert b. induction s as [|c t IH]; intros b; simpl; auto.
  intros H. apply andb_prop in H as [Hc Ht].
  destruct (is_space c).
  - destruct b; simpl; auto.
  - simpl. now rewrite Hc, IH.
Qed.

Lemma lstrip_safe s :
  forallb (safe_char uni_alnum) s = true ->
  forallb (safe_char uni_alnum) (lstrip s) = true.
Proof.
  induction s as [|c t IH]; simpl; auto.
  intros H. destruct (is_space c); simpl; auto.
  apply andb_prop in H as [_ Ht]. auto.
Qed.

Lemma rstrip_safe s :
  forallb (safe_char uni_alnum) s = true ->
  forallb (safe_char uni_alnum) (rstrip s) = true.
Proof.
  induction s as [|c t IH]; simpl; auto.
  intros H. apply andb_prop in H as [Hc Ht]. specialize (IH Ht).
  destruct (rstrip t) as [|d u].
  - destruct (is_space c); simpl; auto. now rewrite Hc.
  - cbn [forallb] in *. now rewrite Hc, IH.
Qed.

(** *** The run-at-a-time collapse is the scanning one *)

Lemma collapse_in_match s :
  re_sub_set_plus_from is_space (py " ") true s =
  re_sub_set_plus_from is_space (py " ") false (lstrip s).
Proof.
  induction s as [|c t IH]; simpl; auto.
  destruct (is_space c) eqn:Ec; simpl; auto. now rewrite Ec.
Qed.

Lemma collapse_fuel_scan fuel s :
  (List.length s <= fuel)%nat ->
  collapse_fuel fuel s = re_sub_set_plus is_space (py " ") s.
Proof.
  unfold re_sub_set_plus.
  revert s. induction fuel as [|fuel IH]; intros s Hlen.
  - destruct s; [reflexivity | simpl in Hlen; lia].
  - destruct s as [|c t]; simpl; auto. simpl in Hlen.
    destruct (is_space c).
    + rewrite collapse_in_match, IH; auto.
      pose proof (lstrip_length t). lia.
    + rewrite IH; auto. lia.
Qed.

Lemma collapse_whitespace_scan s :
  collapse_whitespace s = re_sub_set_plus is_space (py " ") s.
Proof. apply collapse_fuel_scan. lia. Qed.

(** *** The shape of the sanitized core *)

Lemma safe_core_pipeline s :
  safe_core uni_alnum s =
  trim (collapse_whitespace (remove_unsafe uni_alnum (trim (or_empty s)))).
Proof.
  unfold safe_core.
  now rewrite !strip_trim, re_sub_unsafe_filter, collapse_whitespace_scan.
Qed.

Lemma safe_core_single_spaced s :
  single_spaced false (safe_core uni_alnum s) = true.
Proof.
  unfold safe_core, strip, re_sub_set_plus.
  apply single_spaced_rstrip, (single_spaced_lstrip false), collapse_single_spaced.
Qed.

Lemma safe_core_safe s :
  forallb (safe_char uni_alnum) (safe_core uni_alnum s) = true.
Proof.
  unfold safe_core, strip, re_sub_set_plus.
  apply rstrip_safe, lstrip_safe, collapse_safe.
  rewrite re_sub_unsafe_filter. apply remove_unsafe_safe.
Qed.

Lemma safe_core_fixed s :
  safe_core uni_alnum (Some (safe_core uni_alnum s)) = safe_core uni_alnum s.
Proof.
  set (r := safe_core uni_alnum s).
  assert (Hs : strip r = r) by (unfold r, safe_core; apply strip_strip).
  unfold safe_core at 1. cbn [or_empty]. rewrite Hs.
  rewrite re_sub_unsafe_filter, remove_unsafe_fixed by apply safe_core_safe.
  unfold re_sub_set_plus.
  rewrite single_spaced_fixed by apply safe_core_single_spaced.
  exact Hs.
Qed.

(** *** The two claims about the sanitizer *)

Example safe_name_skin_stapler :
  safe_name uni_alnum (Some (py "  skin   stapler!! ")) = py "skin stapler".
Proof. reflexivity. Qed.

Example safe_name_punctuation :
  safe_name uni_alnum (Some (py " ?!.. ")) = py "query".
Proof. reflexivity. Qed.

Example safe_name_none : safe_name uni_alnum None = py "query".
Proof. reflexivity. Qed.

(** C8: for every input, [None] and the empty string included, the
    sanitizer returns a non-empty string, and what it returns is the
    pipeline of the specification: trim, remove every character that is
    not a word character, whitespace or a hyphen, collapse runs of
    whitespace to single spaces, trim again, and fall back to "query" when
    nothing is left. *)
Theorem safe_name_never_empty (s : option pystr) :
  safe_name uni_alnum s <> [] /\
  safe_name uni_alnum s = sanitize uni_alnum s /\
  (trim (collapse_whitespace (remove_unsafe uni_alnum (trim (or_empty s)))) = [] ->
   safe_name uni_alnum s = py "query").
Proof.
  unfold safe_name, sanitize. rewrite safe_core_pipeline.
  destruct (trim _) as [|c r]; repeat split; auto; discriminate.
Qed.

(** C10: the sanitizer is idempotent,
    safe_name(safe_name(s)) = safe_name(s) for every input [s]. *)
Theorem safe_name_idempotent (s : option pystr) :
  safe_name uni_alnum (Some (safe_name uni_alnum s)) = safe_name uni_alnum s.
Proof.
  unfold safe_name at 2 3.
  destruct (safe_core uni_alnum s) as [|c r] eqn:E.
  - reflexivity.
  - unfold safe_name. rewrite <- E, safe_core_fixed, E. reflexivity.
Qed.

End SanitizerFacts.

(** ** The minimum-needed threshold *)

Section Threshold.

Import PyNum.
Local Open Scope Z_scope.

Lemma iter_pos_nat {A} (f : A -> A) p x :
  SpecFloat.iter_pos f p x = Nat.iter (Pos.to_nat p) f x.
Proof.
  revert x. induction p as [p IH|p IH|]; intros x; cbn [SpecFloat.iter_pos].
  - rewrite !IH, Pos2Nat.inj_xI. 
    replace (S (2 * Pos.to_nat p))%nat with (Pos.to_nat p + (Pos.to_nat p + 1))%nat by lia.
    rewrite !Nat.iter_add. reflexivity.
  - rewrite !IH, Pos2Nat.inj_xO.
    replace (2 * Pos.to_nat p)%nat with (Pos.to_nat p + Pos.to_nat p)%nat by lia.
    now rewrite Nat.iter_add.
  - reflexivity.
Qed.

Lemma shr_1_m mrs : 0 <= shr_m mrs -> shr_m (shr_1 mrs) = shr_m mrs / 2.
Proof.
  destruct mrs as [m r s]. simpl. intros H.
  destruct m as [|[p|p|]|p]; try reflexivity; try lia;
    rewrite <- Z.div2_div; reflexivity.
Qed.

Lemma shr_1_r mrs : 0 <= shr_m mrs -> shr_r (shr_1 mrs) = Z.odd (shr_m mrs).
Proof.
  destruct mrs as [m r s]. simpl. intros H.
  destruct m as [|[p|p|]|p]; try reflexivity; lia.
Qed.

Lemma shr_1_s mrs : shr_s (shr_1 mrs) = shr_r mrs || shr_s mrs.
Proof.
  destruct mrs as [m r s]. simpl.
  destruct m as [|[p|p|]|[p|p|]]; reflexivity.
Qed.

Lemma shr_iter M k :
  0 <= M ->
  let mrs := Nat.iter k shr_1 (Build_shr_record M false false) in
  shr_m mrs = M / 2 ^ Z.of_nat k /\
  (M mod 2 ^ Z.of_nat k = 0 -> shr_r mrs = false /\ shr_s mrs = false).
Proof.
  intros HM. induction k as [|k IH].
  - simpl. rewrite Z.div_1_r. auto.
  - cbn zeta in *. rewrite Nat2Z.inj_succ, Z.pow_succ_r by lia.
    simpl Nat.iter. destruct IH as [Hm Hrs].
    set (mrs := Nat.iter k shr_1 _) in *.
    assert (Hpos : 0 < 2 ^ Z.of_nat k) by (apply Z.pow_pos_nonneg; lia).
    assert (H0 : 0 <= shr_m mrs) by (rewrite Hm; apply Z.div_pos; lia).
    split.
    + rewrite shr_1_m, Hm by exact H0.
      rewrite Z.div_div by lia. f_equal. lia.
    + intros Hmod.
      apply Z.mod_divide in Hmod; [|lia]. destruct Hmod as [c Hc].
      assert (Hk : M mod 2 ^ Z.of_nat k = 0).
      { apply Z.mod_divide; [lia|]. exists (c * 2). lia. }
      destruct (Hrs Hk) as [Hr Hs].
      rewrite shr_1_r, shr_1_s, Hr, Hs, Hm by exact H0.
      split; [|reflexivity].
      replace M with ((c * 2) * 2 ^ Z.of_nat k) by lia.
      rewrite Z.div_mul by lia. rewrite Z.odd_mul. simpl. apply andb_false_r.
Qed.

Lemma digits2_pos_bounds p :
  2 ^ (Zpos (digits2_pos p) - 1) <= Zpos p < 2 ^ Zpos (digits2_pos p).
Proof.
  induction p as [p IH|p IH|]; simpl digits2_pos.
  - rewrite Pos2Z.inj_succ. replace (Z.succ (Zpos (digits2_pos p)) - 1) with (Z.succ (Zpos (digits2_pos p) - 1)) by lia.
    rewrite !Z.pow_succ_r by lia. lia.
  - rewrite Pos2Z.inj_succ. replace (Z.succ (Zpos (digits2_pos p)) - 1) with (Z.succ (Zpos (digits2_pos p) - 1)) by lia.
    rewrite !Z.pow_succ_r by lia. lia.
  - simpl. lia.
Qed.

Lemma digits2_pos_unique p k :
  2 ^ (k - 1) <= Zpos p < 2 ^ k -> Zpos (digits2_pos p) = k.
Proof.
  intros [Hlo Hhi]. pose proof (digits2_pos_bounds p) as [Blo Bhi].
  set (d := Zpos (digits2_pos p)) in *.
  assert (0 < d) by (unfold d; lia).
  destruct (Z.lt_trichotomy d k) as [Hlt|[Heq|Hgt]]; auto; exfalso.
  - assert (2 ^ d <= 2 ^ (k - 1)) by (apply Z.pow_le_mono_r; lia). lia.
  - assert (0 <= k).
    { destruct (Z.lt_ge_cases k 0) as [Hn|Hn]; auto.
      rewrite (Z.pow_neg_r 2 k) in Hhi by lia. lia. }
    assert (2 ^ k <= 2 ^ (d - 1)) by (apply Z.pow_le_mono_r; lia). lia.
Qed.

Lemma round_aux_canonical m e :
  Zpos (digits2_pos m) = 53 -> -1074 <= e <= 971 ->
  binary_round_aux prec emax false (Zpos m) e loc_Exact = S754_finite false m e.
Proof.
  intros Hd He.
  unfold binary_round_aux, shr_fexp, fexp, SpecFloat.emin, prec, emax.
  cbn [Zdigits2 shr_record_of_loc]. rewrite Hd.
  replace (Z.max (53 + e - 53) (3 - 1024 - 53) - e) with 0 by lia.
  cbn [shr shr_m loc_of_shr_record round_nearest_even shr_record_of_loc Zdigits2].
  rewrite Hd.
  replace (Z.max (53 + e - 53) (3 - 1024 - 53) - e) with 0 by lia.
  cbn [shr shr_m].
  replace (e <=? 1024 - 53) with true by (symmetry; apply Z.leb_le; lia).
  reflexivity.
Qed.

Lemma round_nearest_even_cases m l :
  round_nearest_even m l = m \/ round_nearest_even m l = m + 1.
Proof.
  destruct l as [|[| |]]; simpl; auto. destruct (Z.even m); auto.
Qed.

Lemma round_aux_shift M E D :
  Zpos (digits2_pos M) = D -> 53 < D ->
  -1074 <= E + D - 53 -> E + D - 53 < 971 ->
  exists m1 m' e',
    binary_round_aux prec emax false (Zpos M) E loc_Exact = S754_finite false m' e' /\
    (m1 = Zpos M / 2 ^ (D - 53) \/ m1 = Zpos M / 2 ^ (D - 53) + 1) /\
    (Zpos M mod 2 ^ (D - 53) = 0 -> m1 = Zpos M / 2 ^ (D - 53)) /\
    ((Zpos m' = m1 /\ e' = E + D - 53) \/
     (m1 = 2 ^ 53 /\ Zpos m' = 2 ^ 52 /\ e' = E + D - 53 + 1)).
Proof.
  intros HD Hlt Hlo Hhi.
  pose proof (digits2_pos_bounds M) as [Blo Bhi]. rewrite HD in Blo, Bhi.
  set (n := D - 53) in *. set (q := Zpos M / 2 ^ n).
  assert (Hn : 0 < n) by (unfold n; lia).
  assert (H2n : 0 < 2 ^ n) by (apply Z.pow_pos_nonneg; lia).
  assert (Hq : 2 ^ 52 <= q < 2 ^ 53).
  { unfold q. split.
    - apply Z.div_le_lower_bound; [lia|].
      rewrite <- Z.pow_add_r by lia. replace (n + 52) with (D - 1) by (unfold n; lia). exact Blo.
    - apply Z.div_lt_upper_bound; [lia|].
      rewrite <- Z.pow_add_r by lia. replace (n + 53) with D by (unfold n; lia). exact Bhi. }
  unfold binary_round_aux, shr_fexp, fexp, SpecFloat.emin, prec, emax.
  cbn [Zdigits2 shr_record_of_loc]. rewrite HD.
  replace (Z.max (D + E - 53) (3 - 1024 - 53) - E) with n by (unfold n; lia).
  destruct n as [|pn|pn] eqn:En; try lia.
  cbn [shr]. rewrite iter_pos_nat.
  destruct (shr_iter (Zpos M) (Pos.to_nat pn) ltac:(lia)) as [Hm Hex].
  rewrite positive_nat_Z in Hm, Hex.
  set (mrs := Nat.iter (Pos.to_nat pn) shr_1 _) in *.
  fold q in Hm.
  set (m1 := round_nearest_even (shr_m mrs) (loc_of_shr_record mrs)).
  assert (Hm1 : m1 = q \/ m1 = q + 1).
  { unfold m1. rewrite <- Hm. apply round_nearest_even_cases. }
  assert (Hexact : Zpos M mod 2 ^ Zpos pn = 0 -> m1 = q).
  { intros H0. destruct (Hex H0) as [Hr Hs]. unfold m1.
    destruct mrs as [mm r s]. simpl in *. subst r s. simpl. exact Hm. }
  assert (Hrange : 2 ^ 52 <= m1 <= 2 ^ 53) by lia.
  destruct m1 as [|pm|pm] eqn:Em1; try lia.
  destruct (Z.eq_dec (Zpos pm) (2 ^ 53)) as [Htop|Hntop].
  - (* the rounded mantissa needs one more bit *)
    exists (Zpos pm), (2 ^ 52)%positive, (E + Zpos pn + 1).
    assert (pm = (2 ^ 53)%positive) by (apply Pos2Z.inj; rewrite Htop; reflexivity).
    subst pm. 
    cbn [Zdigits2 shr_record_of_loc].
    replace (Zpos (digits2_pos (2 ^ 53))) with 54 by reflexivity.
    replace (Z.max (54 + (E + Zpos pn) - 53) (3 - 1024 - 53) - (E + Zpos pn)) with 1 by lia.
    cbn [shr SpecFloat.iter_pos].
    replace (shr_1 {| shr_m := Zpos (2 ^ 53); shr_r := false; shr_s := false |})
      with {| shr_m := Zpos (2 ^ 52); shr_r := false; shr_s := false |} by reflexivity.
    cbn [shr_m].
    replace (E + Zpos pn + 1 <=? 1024 - 53) with true by (symmetry; apply Z.leb_le; lia).
    split; [reflexivity|]. split; [exact Hm1|]. split; [exact Hexact|].
    right. repeat split; try reflexivity. lia.
  - exists (Zpos pm), pm, (E + Zpos pn).
    assert (Hdm : Zpos (digits2_pos pm) = 53) by (apply digits2_pos_unique; simpl (53 - 1); lia).
    cbn [Zdigits2 shr_record_of_loc]. rewrite Hdm.
    replace (Z.max (53 + (E + Zpos pn) - 53) (3 - 1024 - 53) - (E + Zpos pn)) with 0 by lia.
    cbn [shr shr_m].
    replace (E + Zpos pn <=? 1024 - 53) with true by (symmetry; apply Z.leb_le; lia).
    split; [reflexivity|]. split; [exact Hm1|]. split; [exact Hexact|].
    left. split; [reflexivity | lia].
Qed.

Lemma shift_pos_digits k p :
  Zpos (digits2_pos (Pos.iter xO p k)) = Zpos (digits2_pos p) + Zpos k.
Proof.
  induction k as [|k IH] using Pos.peano_ind.
  - simpl. lia.
  - rewrite Pos.iter_succ. cbn [digits2_pos]. rewrite Pos2Z.inj_succ, IH. lia.
Qed.

Lemma normalize_int t :
  1 <= t < 2 ^ 53 ->
  exists mt et,
    binary_normalize prec emax t 0 false = S754_finite false mt et /\
    Zpos (digits2_pos mt) = 53 /\ -52 <= et <= 0 /\
    Zpos mt = t * 2 ^ (- et).
Proof.
  intros [Hlo Hhi]. destruct t as [|p|p]; try lia.
  pose proof (digits2_pos_bounds p) as [Blo Bhi].
  set (d := Zpos (digits2_pos p)) in *.
  assert (Hd : 1 <= d <= 53).
  { split; [unfold d; lia|].
    destruct (Z.le_gt_cases d 53) as [H|H]; auto.
    assert (2 ^ 53 <= 2 ^ (d - 1)) by (apply Z.pow_le_mono_r; lia). lia. }
  unfold binary_normalize, binary_round, shl_align, fexp, SpecFloat.emin, prec, emax.
  fold d. replace (Z.max (d + 0 - 53) (3 - 1024 - 53) - 0) with (d - 53) by lia.
  destruct (d - 53) as [|k|k] eqn:Ek; try lia.
  - exists p, 0. rewrite round_aux_canonical by (fold d; lia).
    repeat split; try lia; fold d; lia.
  - exists (Pos.iter xO p k), (Z.max (d + 0 - 53) (3 - 1024 - 53)).
    replace (Z.max (d + 0 - 53) (3 - 1024 - 53)) with (- Zpos k) by lia.
    assert (Hdk : Zpos (digits2_pos (Pos.iter xO p k)) = 53).
    { rewrite shift_pos_digits. fold d. lia. }
    rewrite round_aux_canonical by (auto; lia).
    repeat split; try lia; auto.
    change (Pos.iter xO p k) with (shift_pos k p).
    rewrite shift_pos_correct, Z.pow_pos_fold, Z.opp_involutive. lia.
Qed.

Lemma fraction_shape mf :
  (0.5 <=? mf)%float = true -> (mf <=? 1)%float = true ->
  exists m e,
    Prim2SF mf = S754_finite false m e /\
    Zpos (digits2_pos m) = 53 /\
    (e = -53 \/ (e = -52 /\ m = (2 ^ 52)%positive)).
Proof.
  rewrite !leb_spec.
  replace (Prim2SF 0.5) with (S754_finite false (2 ^ 52) (-53)) by (vm_compute; reflexivity).
  replace (Prim2SF 1) with (S754_finite false (2 ^ 52) (-52)) by (vm_compute; reflexivity).
  pose proof (Prim2SF_valid mf) as Hv.
  destruct (Prim2SF mf) as [s|s| |s m e]; try discriminate.
  - destruct s; discriminate.
  - unfold SFleb, SFcompare. destruct s; try discriminate.
    unfold SpecFloat.valid_binary, bounded, canonical_mantissa, fexp, SpecFloat.emin, prec, emax in Hv.
    apply andb_prop in Hv as [Hc _]. apply Z.eqb_eq in Hc.
    destruct (Z.compare_spec (-53) e) as [He|He|He]; try discriminate;
    destruct (Z.compare_spec e (-52)) as [He'|He'|He']; try discriminate;
      try lia; intros H1 H2.
    + exists m, e. split; [reflexivity|]. split; [lia|]. left. lia.
    + exists m, e. split; [reflexivity|]. split; [lia|]. right. split; [lia|].
      subst e.
      assert (Hd : Zpos (digits2_pos m) = 53) by lia.
      pose proof (digits2_pos_bounds m) as [Blo Bhi]. rewrite Hd in Blo.
      assert (Hle : (m <= 2 ^ 52)%positive).
      { unfold Pos.le. rewrite Pos.compare_cont_spec in H2. simpl in H2.
        destruct (m ?= 2 ^ 52)%positive; try discriminate; intro; discriminate. }
      apply Pos2Z.inj. change (Zpos (2 ^ 52)) with (2 ^ (53 - 1)). 
      assert (Zpos m <= Zpos (2 ^ 52)) by (apply Pos2Z.pos_le_pos; exact Hle).
      change (Zpos (2 ^ 52)) with (2 ^ (53 - 1)) in H. lia.
Qed.

(** The integer part of the product, in integers. *)
Lemma product_int t mf :
  1 <= t < 2 ^ 53 ->
  (0.5 <=? mf)%float = true -> (mf <=? 1)%float = true ->
  exists m e v,
    Prim2SF mf = S754_finite false m e /\ -53 <= e <= -52 /\
    Zpos m <= 2 ^ (- e) /\
    min_needed t mf = Some (Z.max 1 v) /\
    (t * Zpos m) / 2 ^ (- e) <= v <= - ((- (t * Zpos m)) / 2 ^ (- e)).
Proof.
  intros Ht Hlo Hhi.
  destruct (normalize_int t Ht) as (mt & et & Hn & Hdt & Het & Hmt).
  destruct (fraction_shape mf Hlo Hhi) as (m & e & Hmf & Hdm & He).
  pose proof (digits2_pos_bounds mt) as [Btl Bth]. rewrite Hdt in Btl, Bth.
  pose proof (digits2_pos_bounds m) as [Bml Bmh]. rewrite Hdm in Bml, Bmh.
  simpl (53 - 1) in *.
  assert (Hme : Zpos m <= 2 ^ (- e)).
  { destruct He as [He|[He Hm]]; subst e; [simpl (- -53); lia|].
    subst m. simpl. lia. }
  assert (Her : -53 <= e <= -52) by lia.
  exists m, e.
  set (M := (mt * m)%positive).
  set (E := et + e).
  set (D := Zpos (digits2_pos M)).
  pose proof (digits2_pos_bounds M) as [BMl BMh]. fold D in BMl, BMh.
  assert (HM : Zpos M = Zpos mt * Zpos m) by reflexivity.
  assert (HMlo : 2 ^ 104 <= Zpos M).
  { rewrite HM. change (2 ^ 104) with (2 ^ 52 * 2 ^ 52). apply Z.mul_le_mono_nonneg; lia. }
  assert (HMhi : Zpos M < 2 ^ 106).
  { rewrite HM. change (2 ^ 106) with (2 ^ 53 * 2 ^ 53). apply Z.mul_lt_mono_nonneg; lia. }
  assert (HD : 105 <= D <= 106).
  { split.
    - destruct (Z.lt_ge_cases 104 D) as [H|H]; [lia|].
      assert (0 < D) by (unfold D; lia).
      assert (2 ^ D <= 2 ^ 104) by (apply Z.pow_le_mono_r; lia). lia.
    - destruct (Z.le_gt_cases D 106) as [H|H]; [lia|].
      assert (2 ^ 106 <= 2 ^ (D - 1)) by (apply Z.pow_le_mono_r; lia). lia. }
  assert (H2E : 2 ^ (- E) = 2 ^ (- et) * 2 ^ (- e)).
  { unfold E. rewrite <- Z.pow_add_r by lia. f_equal. lia. }
  assert (Hte : 0 < 2 ^ (- et)) by (apply Z.pow_pos_nonneg; lia).
  assert (Hee : 0 < 2 ^ (- e)) by (apply Z.pow_pos_nonneg; lia).
  assert (HMx : Zpos M <= t * 2 ^ (- E)).
  { rewrite HM, Hmt, H2E. rewrite <- Z.mul_assoc. apply Z.mul_le_mono_nonneg_l; [lia|].
    apply Z.mul_le_mono_nonneg_l; lia. }
  assert (HF : E + D - 53 <= 0).
  { destruct (Z.le_gt_cases (E + D - 53) 0) as [H|H]; [lia|].
    assert (2 ^ (53 - E) <= 2 ^ (D - 1)) by (apply Z.pow_le_mono_r; lia).
    assert (t * 2 ^ (- E) < 2 ^ 53 * 2 ^ (- E)).
    { apply Z.mul_lt_mono_pos_r; [|lia]. apply Z.pow_pos_nonneg; unfold E; lia. }
    rewrite <- Z.pow_add_r in H1 by (unfold E; lia).
    replace (53 + - E) with (53 - E) in H1 by lia. lia. }
  destruct (round_aux_shift M E D eq_refl) as (m1 & m' & e' & Hr & Hm1 & Hex & Hres);
    try (unfold E; lia).
  set (n := D - 53) in *. set (F := E + D - 53) in *.
  set (P := 2 ^ (- F)).
  assert (HP : 0 < P) by (apply Z.pow_pos_nonneg; lia).
  assert (H2n : 0 < 2 ^ n) by (apply Z.pow_pos_nonneg; unfold n; lia).
  assert (HnP : 2 ^ (- E) = 2 ^ n * P).
  { unfold P. rewrite <- Z.pow_add_r by (unfold n, F; lia). f_equal. unfold n, F. lia. }
  set (q := Zpos M / 2 ^ n) in *.
  exists (m1 / P).
  split; [exact Hmf|]. split; [exact Her|]. split; [exact Hme|].
  split.
  - unfold min_needed, float_of_int. rewrite Hn. unfold int_of_float.
    rewrite mul_spec, Hmf, Prim2SF_SF2Prim.
    2:{ unfold SpecFloat.valid_binary, bounded, canonical_mantissa, fexp, SpecFloat.emin, prec, emax.
        rewrite Hdt. apply andb_true_intro. split; [apply Z.eqb_eq | apply Z.leb_le]; lia. }
    unfold SF64mul, SFmul. cbn [xorb]. fold M. fold E. rewrite Hr.
    cbn [option_map cond_Zopp]. do 2 f_equal.
    destruct Hres as [[Hm' He']|(Htop & Hm' & He')].
    + rewrite Hm', He'. fold F.
      destruct (Z.leb_spec 0 F) as [H0|H0].
      * assert (F = 0) by lia. unfold P. rewrite H. simpl. rewrite Z.div_1_r. lia.
      * reflexivity.
    + rewrite Hm', He', Htop. fold F.
      destruct (Z.leb_spec 0 (F + 1)) as [H0|H0].
      * unfold P.
        assert (HF' : F = 0 \/ F = -1) by lia.
        destruct HF' as [HF'|HF']; rewrite HF'; reflexivity.
      * unfold P. replace (- F) with (1 + (- (F + 1))) by lia.
        rewrite Z.pow_add_r by lia.
        change (2 ^ 53) with (2 ^ 1 * 2 ^ 52).
        rewrite Z.div_mul_cancel_l; try lia; try reflexivity.
  - assert (Htm : t * Zpos m * 2 ^ (- et) = Zpos M) by (rewrite HM, Hmt; lia).
    assert (Hfl : t * Zpos m / 2 ^ (- e) = q / P).
    { unfold q. rewrite Z.div_div by lia. rewrite <- HnP, H2E, <- Htm.
      rewrite (Z.mul_comm (t * Zpos m)).
      rewrite Z.div_mul_cancel_l; lia. }
    split.
    + rewrite Hfl. apply Z.div_le_mono; lia.
    + set (C := - (- (t * Zpos m) / 2 ^ (- e))).
      assert (HC : t * Zpos m <= C * 2 ^ (- e)).
      { unfold C. pose proof (Z.mul_div_le (- (t * Zpos m)) (2 ^ (- e)) Hee). lia. }
      assert (HCM : Zpos M <= C * P * 2 ^ n).
      { rewrite <- Htm.
        replace (C * P * 2 ^ n) with (C * 2 ^ (- E)) by (rewrite HnP; lia).
        rewrite H2E.
        replace (C * (2 ^ (- et) * 2 ^ (- e))) with (C * 2 ^ (- e) * 2 ^ (- et)) by lia.
        apply Z.mul_le_mono_nonneg_r; lia. }
      apply Z.div_le_upper_bound; [lia|].
      pose proof (Z.div_mod (Zpos M) (2 ^ n) ltac:(lia)) as Hdm'.
      pose proof (Z.mod_pos_bound (Zpos M) (2 ^ n) H2n) as Hmod.
      fold q in Hdm'.
      destruct (Z.eq_dec (Zpos M mod 2 ^ n) 0) as [Hz|Hnz].
      * rewrite (Hex Hz). rewrite Hz in Hdm'. nia.
      * assert (q < C * P) by nia. lia.
Qed.

Lemma scaled_floor t m e :
  e < 0 ->
  Qfloor (inject_Z t * SF2Q (S754_finite false m e)) = (t * Zpos m) / 2 ^ (- e).
Proof.
  intros He. destruct e as [|pe|pe]; try lia.
  unfold SF2Q, Qfloor, Qmult, inject_Z. cbn [Qnum Qden].
  rewrite Pos.mul_1_l, Pos2Z.inj_pow. reflexivity.
Qed.

Lemma scaled_ceiling t m e :
  e < 0 ->
  Qceiling (inject_Z t * SF2Q (S754_finite false m e)) =
  - ((- (t * Zpos m)) / 2 ^ (- e)).
Proof.
  intros He. destruct e as [|pe|pe]; try lia.
  unfold Qceiling, SF2Q, Qfloor, Qopp, Qmult, inject_Z. cbn [Qnum Qden].
  rewrite Pos.mul_1_l, Pos2Z.inj_pow. reflexivity.
Qed.

Lemma min_needed_le_target t mf :
  1 <= t < 2 ^ 53 ->
  (0.5 <=? mf)%float = true -> (mf <=? 1)%float = true ->
  exists n, min_needed t mf = Some n /\ 1 <= n <= t.
Proof.
  intros Ht Hlo Hhi.
  destruct (product_int t mf Ht Hlo Hhi) as (m & e & v & Hmf & He & Hme & Hn & Hv).
  exists (Z.max 1 v). split; [exact Hn|]. split; [lia|].
  assert (Hee : 0 < 2 ^ (- e)) by (apply Z.pow_pos_nonneg; lia).
  assert (- t <= - (t * Zpos m) / 2 ^ (- e)).
  { apply Z.div_le_lower_bound; [lia|]. nia. }
  lia.
Qed.

(** C1, as stated, fails: for target 10 and the default fraction 0.66
    the code computes int(6.6000000000000005) = 6, while the ceiling of
    10 x 0.66 is 7. *)
Lemma min_needed_below_ceiling :
  1 <= 10 /\
  (0.5 <=? default_min_fraction)%float = true /\
  (default_min_fraction <=? 1)%float = true /\
  min_needed 10 default_min_fraction = Some 6 /\
  min_needed_ceiling 10 default_min_fraction = 7 /\
  min_needed 10 default_min_fraction <>
  Some (min_needed_ceiling 10 default_min_fraction).
Proof.
  assert (H6 : min_needed 10 default_min_fraction = Some 6)
    by (vm_compute; reflexivity).
  assert (H7 : min_needed_ceiling 10 default_min_fraction = 7)
    by (vm_compute; reflexivity).
  repeat split; try reflexivity; try lia; auto.
  rewrite H6, H7. discriminate.
Qed.

(** The binary64 product can also round up to an integer: 3 x 0.6666666666666666
    is 2.0, so the threshold is 2, the ceiling of the exact product, whose
    floor is 1. *)
Example min_needed_above_floor :
  min_needed 3 0x1.5555555555555p-1%float = Some 2 /\
  min_needed_floor 3 0x1.5555555555555p-1%float = 1.
Proof. split; vm_compute; reflexivity. Qed.

Example min_needed_100_066 : min_needed 100 default_min_fraction = Some 66.
Proof. vm_compute. reflexivity. Qed.

Example min_needed_100_057 : min_needed 100 0x1.23d70a3d70a3dp-1%float = Some 56.
Proof. vm_compute. reflexivity. Qed.

(** C1, amended: for 1 <= target < 2^53 and min_fraction in [0.5, 1.0] line
    49 does not raise, and the threshold, max(1, int(target *
    min_fraction)) with the product taken in binary64, lies between the
    floor and the ceiling of the exact product target x min_fraction, each
    raised to at least 1. *)
Theorem min_needed_between t mf :
  1 <= t < 2 ^ 53 ->
  (0.5 <=? mf)%float = true -> (mf <=? 1)%float = true ->
  exists n,
    min_needed t mf = Some n /\
    min_needed_floor t mf <= n <= min_needed_ceiling t mf.
Proof.
  intros Ht Hlo Hhi.
  destruct (product_int t mf Ht Hlo Hhi) as (m & e & v & Hmf & He & Hme & Hn & Hv).
  exists (Z.max 1 v). split; [exact Hn|].
  unfold min_needed_floor, min_needed_ceiling, float_value. rewrite Hmf.
  rewrite scaled_floor, scaled_ceiling by lia. lia.
Qed.

Lemma min_needed_between_witness :
  exists n,
    min_needed 10 default_min_fraction = Some n /\
    min_needed_floor 10 default_min_fraction <= n
      <= min_needed_ceiling 10 default_min_fraction.
Proof.
  apply (min_needed_between 10 default_min_fraction);
    [split; [lia | reflexivity] | reflexivity | reflexivity].
Defined.

End Threshold.

(** ** The accumulation loop *)

Section LoopFacts.

Import Sanitizer Loop.
Local Open Scope Z_scope.

Variable World : Type.
Variable count_images : World -> Z.
Variable crawl : pystr -> Z -> Z -> World -> World.
Variable keyword : pystr.
Variable target min_needed round_batch_size : Z.

Local Abbreviation round :=
  (Loop.round World count_images crawl keyword target min_needed round_batch_size).
Local Abbreviation rounds :=
  (Loop.rounds World count_images crawl keyword target min_needed round_batch_size).
Local Abbreviation at_round :=
  (Loop.at_round World count_images crawl keyword target min_needed round_batch_size).
Local Abbreviation accumulate :=
  (Loop.accumulate World count_images crawl keyword target min_needed round_batch_size).
Local Abbreviation after_loop := (Loop.after_loop World count_images target).
Local Abbreviation batch_size := (Loop.batch_size target round_batch_size).
Local Abbreviation stagnation := (Loop.stagnation World).
Local Abbreviation initial := (Loop.initial World).
Local Abbreviation counts_repeats := (Loop.counts_repeats World).

(** *** One round *)

Lemma round_return st got exact st' :
  round st = Return got exact st' ->
  got = count_images (world st) /\
  offset st' = offset st /\ world st' = world st /\
  log st' = log st ++ [Scanned got] /\
  (exact = true /\ target <= got \/
   exact = false /\ got < target /\
   3 <= fst (stagnation st got) /\ min_needed <= got).
Proof.
  unfold Loop.round.
  destruct (Z.leb_spec target (count_images (world st))) as [Ht|Ht].
  - intros H. inversion H; subst. cbn. tauto.
  - destruct (stagnation st (count_images (world st))) as [sg la] eqn:Es.
    destruct (Z.leb_spec 3 sg) as [H3|H3];
      destruct (Z.leb_spec min_needed (count_images (world st))) as [Hm|Hm];
      cbn [andb];
      try (destruct ((4 <=? sg) && (count_images (world st) <? min_needed)));
      intros H; inversion H; subst; cbn.
    all: rewrite Es; cbn; intuition lia.
Qed.

Lemma round_break st st' :
  round st = Break st' ->
  let c := count_images (world st) in
  c < target /\ 4 <= fst (stagnation st c) /\ c < min_needed /\
  offset st' = offset st /\ world st' = world st /\
  log st' = log st ++ [Scanned c].
Proof.
  unfold Loop.round.
  destruct (Z.leb_spec target (count_images (world st))) as [Ht|Ht];
    [discriminate|].
  destruct (stagnation st (count_images (world st))) as [sg la] eqn:Es.
  destruct ((3 <=? sg) && (min_needed <=? count_images (world st)));
    [discriminate|].
  destruct (Z.leb_spec 4 sg) as [H4|H4];
    destruct (Z.ltb_spec (count_images (world st)) min_needed) as [Hm|Hm];
    cbn [andb]; intros H; inversion H; subst; cbn.
  repeat split; auto.
Qed.

Lemma round_continue st st' :
  round st = Continue st' ->
  let c := count_images (world st) in
  c < target /\
  offset st' = offset st + batch_size c /\
  world st' = crawl keyword (offset st) (batch_size c) (world st) /\
  last_count st' = snd (stagnation st c) /\
  stagnant_rounds st' = fst (stagnation st c) /\
  log st' = log st ++ [Scanned c; Crawled keyword (offset st) (batch_size c)].
Proof.
  unfold Loop.round.
  destruct (Z.leb_spec target (count_images (world st))) as [Ht|Ht];
    [discriminate|].
  destruct (stagnation st (count_images (world st))) as [sg la] eqn:Es.
  destruct ((3 <=? sg) && (min_needed <=? count_images (world st)));
    [discriminate|].
  destruct ((4 <=? sg) && (count_images (world st) <? min_needed));
    [discriminate|].
  intros H. inversion H; subst. cbn.
  rewrite <- app_assoc. repeat split; auto.
Qed.

(** *** The rounds of a run *)

Lemma rounds_at_round n k st st' :
  at_round n st = Some st' -> rounds (n + k) st = rounds k st'.
Proof.
  revert st. induction n as [|n IH]; intros st; cbn.
  - intros H. now inversion H.
  - destruct (round st); try discriminate. apply IH.
Qed.

Lemma accumulate_from_round max_rounds w n st :
  at_round n (initial w) = Some st -> (n < Z.to_nat max_rounds)%nat ->
  exists k, accumulate max_rounds w = rounds (S k) st.
Proof.
  intros Hat Hn. exists (Z.to_nat max_rounds - S n)%nat.
  unfold Loop.accumulate.
  replace (Z.to_nat max_rounds) with (n + S (Z.to_nat max_rounds - S n))%nat
    at 1 by lia.
  now apply rounds_at_round.
Qed.

Lemma calls_app l1 l2 : calls (l1 ++ l2) = calls l1 ++ calls l2.
Proof.
  induction l1 as [|[c|kw o b] l1 IH]; cbn; auto. now rewrite IH.
Qed.

Lemma after_loop_spec st :
  fst (after_loop st) =
    (count_images (world st), target <=? count_images (world st)) /\
  offset (snd (after_loop st)) = offset st /\
  world (snd (after_loop st)) = world st /\
  log (snd (after_loop st)) = log st ++ [Scanned (count_images (world st))].
Proof. cbn. auto. Qed.

(** What a run leaves of a starting state: the log is extended, the calls
    of the crawler in the extension chain up from the offset, and each is
    sized from the scan before it. *)
Lemma rounds_footprint n st :
  exists ext,
    log (snd (rounds n st)) = log st ++ ext /\
    chained (offset st) (calls ext) /\
    offset (snd (rounds n st)) = offset st + total (calls ext) /\
    requests_sized target round_batch_size None ext /\
    Forall (fun ob => snd ob <= round_batch_size) (calls ext).
Proof.
  revert st. induction n as [|n IH]; intros st.
  - exists [Scanned (count_images (world st))]. cbn. repeat split; auto; lia.
  - cbn [Loop.rounds].
    destruct (round st) as [got exact st'|st'|st'] eqn:Er.
    + apply round_return in Er as (_ & Ho & _ & Hl & _).
      exists [Scanned got]. cbn. rewrite Ho, Hl. repeat split; auto; lia.
    + apply round_break in Er as (_ & _ & _ & Ho & Hw & Hl).
      exists [Scanned (count_images (world st));
              Scanned (count_images (world st'))].
      cbn. rewrite Hl, Ho, <- app_assoc. repeat split; auto; lia.
    + apply round_continue in Er as (_ & Ho & _ & _ & _ & Hl).
      destruct (IH st') as (ext & Hlog & Hch & Hoff & Hsz & Hcap).
      exists ([Scanned (count_images (world st));
               Crawled keyword (offset st)
                 (batch_size (count_images (world st)))] ++ ext).
      rewrite Hlog, Hl, <- app_assoc. split; [reflexivity|].
      cbn. rewrite Ho in Hch, Hoff. unfold total in *.
      repeat split; auto; try lia.
      * exists (count_images (world st)). split; reflexivity.
      * constructor; auto. cbn. unfold Loop.batch_size. lia.
Qed.

Lemma at_round_footprint n st st' :
  at_round n st = Some st' ->
  exists ext,
    log st' = log st ++ ext /\
    List.length (calls ext) = n /\
    chained (offset st) (calls ext) /\
    offset st' = offset st + total (calls ext) /\
    Forall (fun ob => Z.min round_batch_size 30 <= snd ob <= round_batch_size)
      (calls ext).
Proof.
  revert st. induction n as [|n IH]; intros st; cbn [Loop.at_round].
  - intros H. inversion H; subst. exists []. cbn.
    rewrite app_nil_r. repeat split; auto; lia.
  - destruct (round st) as [got exact s1|s1|s1] eqn:Er; try discriminate.
    intros Hat. apply round_continue in Er as (_ & Ho & _ & _ & _ & Hl).
    destruct (IH s1 Hat) as (ext & Hlog & Hlen & Hch & Hoff & Hall).
    exists ([Scanned (count_images (world st));
             Crawled keyword (offset st)
               (batch_size (count_images (world st)))] ++ ext).
    rewrite Hlog, Hl, <- app_assoc. split; [reflexivity|].
    cbn. rewrite Ho in Hch, Hoff. unfold total in *.
    repeat split; auto; try lia.
    constructor; auto. cbn. unfold Loop.batch_size. lia.
Qed.

(** *** Offsets *)

Lemma total_firstn_nonneg k cs :
  Forall (fun ob => 0 <= snd ob) cs -> 0 <= total (firstn k cs).
Proof.
  intros H. revert k. induction H as [|ob cs Hob _ IH]; intros [|k]; cbn; try lia.
  specialize (IH k). unfold total in IH. lia.
Qed.

Lemma chained_nth o cs k o' b :
  chained o cs -> nth_error cs k = Some (o', b) ->
  o' = o + total (firstn k cs).
Proof.
  revert o k. induction cs as [|[o1 b1] cs IH]; intros o [|k]; cbn;
    try discriminate.
  - intros [Ho _] H. inversion H; subst. lia.
  - intros [_ Hc] H. rewrite (IH _ _ Hc H). unfold total. lia.
Qed.

Lemma chained_disjoint o cs i j oi bi oj bj :
  chained o cs -> Forall (fun ob => 0 <= snd ob) cs ->
  nth_error cs i = Some (oi, bi) -> nth_error cs j = Some (oj, bj) ->
  (i < j)%nat -> oi + bi <= oj.
Proof.
  revert o i j. induction cs as [|[o1 b1] cs IH]; intros o i j Hc Hall Hi Hj Hij.
  - destruct i; discriminate.
  - destruct j as [|j]; [lia|]. cbn in Hc, Hj. destruct Hc as [Ho Hc].
    inversion Hall as [|? ? Hb Hall']; subst.
    destruct i as [|i]; cbn in Hi.
    + inversion Hi; subst.
      rewrite (chained_nth _ _ _ _ _ Hc Hj).
      pose proof (total_firstn_nonneg j cs Hall'). lia.
    + apply (IH (o + b1) i j); auto. lia.
Qed.

(** C3: the offset starts at 0; the call of round k + 1 is made at the sum
    of the batch sizes requested in the first k rounds, whatever the
    crawler saved; after N rounds (N calls) the offset is the sum of the N
    batch sizes; a later call starts at or after the end of the range of
    an earlier one, so the offset is never reset or decreased (and goes up
    strictly when the cap is positive); and the same chain holds of the
    calls of a whole run. *)
Theorem offset_is_sum_of_requested_batches (w : World) (N : nat)
    (st : state World) :
  0 <= round_batch_size ->
  at_round N (initial w) = Some st ->
  offset (initial w) = 0 /\
  List.length (calls (log st)) = N /\
  offset st = total (calls (log st)) /\
  (forall k o b, nth_error (calls (log st)) k = Some (o, b) ->
     o = total (firstn k (calls (log st)))) /\
  (forall i j oi bi oj bj,
     nth_error (calls (log st)) i = Some (oi, bi) ->
     nth_error (calls (log st)) j = Some (oj, bj) ->
     (i < j)%nat ->
     oi <= oi + bi <= oj /\ (0 < round_batch_size -> oi < oj)) /\
  (forall max_rounds,
     chained 0 (calls (log (snd (accumulate max_rounds w)))) /\
     offset (snd (accumulate max_rounds w)) =
       total (calls (log (snd (accumulate max_rounds w))))).
Proof.
  intros Hcap Hat.
  destruct (at_round_footprint _ _ _ Hat) as (ext & Hlog & Hlen & Hch & Hoff & Hall).
  cbn [Loop.initial log offset app] in Hlog, Hch, Hoff. rewrite Hlog.
  assert (Hnn : Forall (fun ob => 0 <= snd ob) (calls ext)).
  { eapply Forall_impl; [|exact Hall]. cbn. intros ob Hob. lia. }
  split; [reflexivity|]. split; [exact Hlen|]. split; [lia|].
  split; [|split].
  - intros k o b Hk. rewrite (chained_nth _ _ _ _ _ Hch Hk). lia.
  - intros i j oi bi oj bj Hi Hj Hij.
    pose proof (chained_disjoint _ _ _ _ _ _ _ _ Hch Hnn Hi Hj Hij).
    apply nth_error_In in Hi.
    rewrite Forall_forall in Hall. specialize (Hall _ Hi). cbn in Hall. lia.
  - intros max_rounds. unfold Loop.accumulate.
    destruct (rounds_footprint (Z.to_nat max_rounds) (initial w))
      as (ext' & Hlog' & Hch' & Hoff' & _).
    cbn [Loop.initial log offset app] in Hlog', Hch', Hoff'.
    rewrite Hlog'. split; [exact Hch' | lia].
Qed.

(** *** The stagnation counter *)

Lemma scans_app l1 l2 : scans (l1 ++ l2) = scans l1 ++ scans l2.
Proof.
  induction l1 as [|[c|kw o b] l1 IH]; cbn; auto. now rewrite IH.
Qed.

Lemma counts_repeats_round st st' :
  counts_repeats st -> round st = Continue st' -> counts_repeats st'.
Proof.
  intros [H0 Hrep] Hr.
  apply round_continue in Hr as (_ & _ & _ & Hla & Hsg & Hl).
  unfold Loop.stagnation in Hla, Hsg.
  set (c0 := count_images (world st)) in *.
  split.
  - rewrite Hsg. destruct (c0 =? last_count st); cbn; lia.
  - intros pre k c Hs.
    rewrite Hl, scans_app in Hs. cbn [scans repeat] in Hs.
    rewrite repeat_cons, app_assoc in Hs.
    apply app_inj_tail in Hs as [Hs Hc]. subst c.
    rewrite Hla, Hsg.
    destruct k as [|k].
    + destruct (Z.eqb_spec c0 (last_count st)) as [E|E]; cbn; split; lia.
    + destruct (Hrep _ _ _ Hs) as [Hlast Hk].
      rewrite Hlast, Z.eqb_refl. cbn. split; lia.
Qed.

Lemma counts_repeats_at_round n st st' :
  counts_repeats st -> at_round n st = Some st' -> counts_repeats st'.
Proof.
  revert st. induction n as [|n IH]; intros st Hinv; cbn [Loop.at_round].
  - intros H. now inversion H; subst.
  - destruct (round st) as [| |s1] eqn:Er; try discriminate.
    apply IH. eapply counts_repeats_round; eauto.
Qed.

Lemma counts_repeats_initial w : counts_repeats (initial w).
Proof.
  split; [cbn; lia|]. intros pre k c H. cbn in H.
  destruct pre; discriminate.
Qed.

(** Three rounds in a row and the round at hand found the same count:
    the counter of the round at hand is 3 or more. *)
Lemma three_repeats_stagnate w N st pre :
  at_round N (initial w) = Some st ->
  scans (log st) =
    pre ++ repeat (count_images (world st)) 3 ->
  3 <= fst (stagnation st (count_images (world st))).
Proof.
  intros Hat Hs.
  destruct (counts_repeats_at_round _ _ _ (counts_repeats_initial w) Hat)
    as [_ Hrep].
  destruct (Hrep pre 2%nat _ Hs) as [Hlast Hk].
  unfold Loop.stagnation. rewrite Hlast, Z.eqb_refl. cbn. lia.
Qed.

(** *** Ways out of the loop *)

(** C4: when a round starts with the on-disk count at or above the target,
    the run returns (that count, true); the log ends with the scan of that
    round, so the crawler is not called in that round or later. *)
Theorem target_reached_returns_at_once (w : World) (max_rounds : Z)
    (N : nat) (st : state World) :
  at_round N (initial w) = Some st ->
  (N < Z.to_nat max_rounds)%nat ->
  target <= count_images (world st) ->
  fst (accumulate max_rounds w) = (count_images (world st), true) /\
  log (snd (accumulate max_rounds w)) =
    log st ++ [Scanned (count_images (world st))] /\
  calls (log (snd (accumulate max_rounds w))) = calls (log st).
Proof.
  intros Hat Hn Ht.
  destruct (accumulate_from_round _ _ _ _ Hat Hn) as [k ->].
  cbn [Loop.rounds]. unfold Loop.round.
  apply Z.leb_le in Ht. rewrite Ht. cbn.
  rewrite calls_app. cbn. rewrite app_nil_r. auto.
Qed.

(** C5: when a round finds the count below the target, unchanged against
    the baseline for the third consecutive round or more, and at or above
    the minimum-needed threshold, the run returns (count, false) in that
    round, before [max_rounds] is used up and without a further call of
    the crawler. *)
Theorem stagnation_with_enough_returns_partial (w : World) (max_rounds : Z)
    (N : nat) (st : state World) :
  at_round N (initial w) = Some st ->
  (N < Z.to_nat max_rounds)%nat ->
  count_images (world st) < target ->
  3 <= fst (stagnation st (count_images (world st))) ->
  min_needed <= count_images (world st) ->
  fst (accumulate max_rounds w) = (count_images (world st), false) /\
  log (snd (accumulate max_rounds w)) =
    log st ++ [Scanned (count_images (world st))] /\
  calls (log (snd (accumulate max_rounds w))) = calls (log st).
Proof.
  intros Hat Hn Ht H3 Hm.
  destruct (accumulate_from_round _ _ _ _ Hat Hn) as [k ->].
  cbn [Loop.rounds]. unfold Loop.round.
  apply Z.leb_gt in Ht. rewrite Ht.
  destruct (stagnation st (count_images (world st))) as [sg la].
  cbn [fst] in H3. apply Z.leb_le in H3, Hm. rewrite H3, Hm. cbn.
  rewrite calls_app. cbn. rewrite app_nil_r. auto.
Qed.

(** C6: when a round finds the count unchanged against the baseline for
    the fourth consecutive round or more and below the minimum-needed
    threshold, the crawler is not called again, and the run returns
    (final count, final count >= target) for the count on disk at the end;
    past the target check the log ends with the scan of the round and
    the one final re-scan. *)
Theorem stagnation_below_minimum_breaks (w : World) (max_rounds : Z)
    (N : nat) (st : state World) :
  at_round N (initial w) = Some st ->
  (N < Z.to_nat max_rounds)%nat ->
  4 <= fst (stagnation st (count_images (world st))) ->
  count_images (world st) < min_needed ->
  calls (log (snd (accumulate max_rounds w))) = calls (log st) /\
  fst (accumulate max_rounds w) =
    (count_images (world (snd (accumulate max_rounds w))),
     target <=? count_images (world (snd (accumulate max_rounds w)))) /\
  (count_images (world st) < target ->
   log (snd (accumulate max_rounds w)) =
     log st ++ [Scanned (count_images (world st));
                Scanned (count_images (world (snd (accumulate max_rounds w))))]).
Proof.
  intros Hat Hn H4 Hm.
  destruct (accumulate_from_round _ _ _ _ Hat Hn) as [k ->].
  cbn [Loop.rounds]. unfold Loop.round.
  destruct (Z.leb_spec target (count_images (world st))) as [Ht|Ht].
  - cbn. rewrite calls_app. cbn. rewrite app_nil_r.
    apply Z.leb_le in Ht. rewrite Ht. repeat split; auto. lia.
  - destruct (stagnation st (count_images (world st))) as [sg la].
    cbn [fst] in H4.
    replace (min_needed <=? count_images (world st)) with false
      by (symmetry; apply Z.leb_gt; lia).
    rewrite andb_false_r.
    apply Z.leb_le in H4. apply Z.ltb_lt in Hm. rewrite H4, Hm. cbn.
    rewrite <- app_assoc, calls_app. cbn. rewrite app_nil_r. auto.
Qed.

(** *** Batch sizes *)

(** C7: in a whole run every call of the crawler follows the scan of its
    round and asks for min(cap, max(30, (target - count) * 2)) images, and
    no call asks for more than the cap. *)
Theorem batch_is_capped_double_remaining (w : World) (max_rounds : Z) :
  requests_sized target round_batch_size None
    (log (snd (accumulate max_rounds w))) /\
  Forall (fun ob => snd ob <= round_batch_size)
    (calls (log (snd (accumulate max_rounds w)))).
Proof.
  unfold Loop.accumulate.
  destruct (rounds_footprint (Z.to_nat max_rounds) (initial w))
    as (ext & Hlog & _ & _ & Hsz & Hcap).
  cbn [Loop.initial log app] in Hlog. rewrite Hlog. auto.
Qed.

End LoopFacts.

(** ** The handler of the button *)

Section HandlerFacts.

Import Sanitizer PyNum Loop Handler.
Local Open Scope Z_scope.

Variable uni_alnum : codepoint -> bool.
Variable World : Type.
Variable count_images : World -> Z.
Variable crawl : pystr -> Z -> Z -> World -> World.

Local Abbreviation on_click :=
  (Handler.on_click uni_alnum World count_images crawl).
Local Abbreviation download_until_target :=
  (Loop.download_until_target World count_images crawl).

Lemma pystr_eqb_eq a b : pystr_eqb a b = true <-> a = b.
Proof.
  unfold pystr_eqb. destruct (list_eq_dec N.eq_dec a b); split; auto.
  discriminate.
Qed.

(** The term is turned down exactly when the sanitizer returns "query",
    which it does for an empty core and for the core "query" itself. *)
Lemma invalid_term_iff (query : pystr) :
  invalid_term (safe_name uni_alnum (Some query)) = true <->
  safe_core uni_alnum (Some query) = [] \/
  safe_core uni_alnum (Some query) = py "query".
Proof.
  unfold safe_name.
  destruct (safe_core uni_alnum (Some query)) as [|c r] eqn:E.
  - split; auto.
  - cbn [invalid_term]. rewrite pystr_eqb_eq. split; auto.
    intros [H|H]; [discriminate | exact H].
Qed.

Lemma invalid_term_aborts (query : pystr) limit mf max_rounds w :
  invalid_term (safe_name uni_alnum (Some query)) = true ->
  on_click query limit mf max_rounds w =
    [st_error "Please enter a valid search term."; st_stop].
Proof. unfold Handler.on_click. now intros ->. Qed.

Lemma valid_term_downloads (query : pystr) limit mf max_rounds w r :
  invalid_term (safe_name uni_alnum (Some query)) = false ->
  download_until_target (safe_name uni_alnum (Some query)) w limit mf 80
    max_rounds = Some r ->
  exists rest,
    on_click query limit mf max_rounds w =
      map downloader (log (snd r)) ++ rest.
Proof.
  unfold Handler.on_click. intros -> ->. destruct r as [[got exact] st].
  eexists. reflexivity.
Qed.

(** C2 fails on the code at the term "query": the sanitizer keeps it as it
    is (its core is not empty, no fallback is involved), and the handler
    turns it down as invalid before any download. *)
Theorem literal_query_is_rejected (limit : Z) (mf : float) (max_rounds : Z)
    (w : World) :
  py "query" <> [] /\
  safe_core uni_alnum (Some (py "query")) = py "query" /\
  safe_name uni_alnum (Some (py "query")) = py "query" /\
  on_click (py "query") limit mf max_rounds w =
    [st_error "Please enter a valid search term."; st_stop].
Proof.
  repeat split; try reflexivity. discriminate.
Qed.

(** C9: when the loop reports a final count of 0, the handler never
    reaches [make_zip_from_folder]: after the calls of the loop it shows
    the error, stops, and only the clean-up of the [finally] runs. *)
Theorem zero_images_no_archive (query : pystr) (limit : Z) (mf : float)
    (max_rounds : Z) (w : World) (exact : bool) (st : state World) :
  download_until_target (safe_name uni_alnum (Some query)) w limit mf 80
    max_rounds = Some ((0, exact), st) ->
  ~ In make_zip_from_folder (on_click query limit mf max_rounds w) /\
  (invalid_term (safe_name uni_alnum (Some query)) = false ->
   on_click query limit mf max_rounds w =
     map downloader (log st) ++
     [st_error "No images were downloaded. Try a broader query.";
      st_stop; rmtree]).
Proof.
  intros Hrun. unfold Handler.on_click.
  destruct (invalid_term (safe_name uni_alnum (Some query))).
  - split; [|discriminate].
    intros [H|[H|[]]]; discriminate.
  - rewrite Hrun. unfold Loop.download_until_target in Hrun.
    destruct (min_needed limit mf) as [mn|]; [|discriminate].
    cbn [Z.eqb]. split; [|reflexivity].
    intros H. apply in_app_or in H as [H|H].
    + apply in_map_iff in H as (e & He & _). discriminate.
    + destruct H as [H|[H|[H|[]]]]; discriminate.
Qed.

End HandlerFacts.

(** ** Runs on a concrete download directory *)

Section Runs.

Import Sanitizer PyNum Loop Handler.
Local Open Scope Z_scope.

Local Abbreviation demo_accumulate supply :=
  (Loop.accumulate Z Demo.count_images (Demo.crawl supply) (py "cats")
     100 66 80).
Local Abbreviation demo_at_round supply :=
  (Loop.at_round Z Demo.count_images (Demo.crawl supply) (py "cats")
     100 66 80).
Local Abbreviation demo_on_click supply :=
  (Handler.on_click (fun _ => false) Z Demo.count_images (Demo.crawl supply)).

(** The crawler yields 70 images and then nothing more: (70, false), and
    the handler reports success without a warning, since 70 >= 66. *)
Example scenario_70 :
  fst (demo_accumulate 70 12 0) = (70, false) /\
  calls (log (snd (demo_accumulate 70 12 0))) =
    [(0, 80); (80, 60); (140, 60); (200, 60)] /\
  demo_on_click 70 (py "cats") 100 default_min_fraction 12 0 =
    map downloader (log (snd (demo_accumulate 70 12 0))) ++
    [make_zip_from_folder; st_success 70 false;
     st_download_button (py "cats.zip"); rmtree].
Proof. repeat split; vm_compute; reflexivity. Qed.

(** The crawler yields 40 images and then nothing more: (40, false), and
    the handler warns, since 40 < 66, and still builds the archive. *)
Example scenario_40 :
  fst (demo_accumulate 40 12 0) = (40, false) /\
  demo_on_click 40 (py "cats") 100 default_min_fraction 12 0 =
    map downloader (log (snd (demo_accumulate 40 12 0))) ++
    [st_warning 40 66; make_zip_from_folder; st_success 40 false;
     st_download_button (py "cats.zip"); rmtree].
Proof. repeat split; vm_compute; reflexivity. Qed.

(** The crawler yields nothing: the loop gives up in round 4, after three
    calls, with (0, false), and the handler reports the error. *)
Example scenario_0 :
  fst (demo_accumulate 0 12 0) = (0, false) /\
  calls (log (snd (demo_accumulate 0 12 0))) = [(0, 80); (80, 80); (160, 80)] /\
  demo_on_click 0 (py "cats") 100 default_min_fraction 12 0 =
    map downloader (log (snd (demo_accumulate 0 12 0))) ++
    [st_error "No images were downloaded. Try a broader query.";
     st_stop; rmtree].
Proof. repeat split; vm_compute; reflexivity. Qed.

(** The target is passed: (120, true) in round 3. *)
Example scenario_500 :
  fst (demo_accumulate 500 12 0) = (120, true) /\
  calls (log (snd (demo_accumulate 500 12 0))) = [(0, 80); (80, 40)].
Proof. repeat split; vm_compute; reflexivity. Qed.

Lemma offset_is_sum_of_requested_batches_witness :
  exists st,
    demo_at_round 70 3 (Loop.initial Z 0) = Some st /\
    offset st = 200 /\
    List.length (calls (log st)) = 3%nat /\
    offset st = total (calls (log st)).
Proof.
  eexists. split; [reflexivity|]. split; [reflexivity|].
  pose proof (offset_is_sum_of_requested_batches Z Demo.count_images
                (Demo.crawl 70) (py "cats") 100 66 80 0 3%nat _
                ltac:(lia) eq_refl) as (_ & Hlen & Hoff & _).
  split; [exact Hlen | exact Hoff].
Defined.

Lemma target_reached_returns_at_once_witness :
  exists st,
    demo_at_round 500 2 (Loop.initial Z 0) = Some st /\
    fst (demo_accumulate 500 12 0) = (Demo.count_images (world st), true) /\
    calls (log (snd (demo_accumulate 500 12 0))) = calls (log st).
Proof.
  eexists. split; [reflexivity|].
  pose proof (target_reached_returns_at_once Z Demo.count_images
                (Demo.crawl 500) (py "cats") 100 66 80 0 12 2%nat _
                eq_refl ltac:(cbn; lia) ltac:(cbn; lia)) as (Hres & _ & Hcalls).
  split; [exact Hres | exact Hcalls].
Defined.

Lemma stagnation_with_enough_returns_partial_witness :
  exists st,
    demo_at_round 70 4 (Loop.initial Z 0) = Some st /\
    fst (demo_accumulate 70 12 0) = (Demo.count_images (world st), false) /\
    calls (log (snd (demo_accumulate 70 12 0))) = calls (log st).
Proof.
  eexists. split; [reflexivity|].
  pose proof (stagnation_with_enough_returns_partial Z Demo.count_images
                (Demo.crawl 70) (py "cats") 100 66 80 0 12 4%nat _
                eq_refl ltac:(cbn; lia) ltac:(cbn; lia) ltac:(cbn; lia)
                ltac:(cbn; lia)) as (Hres & _ & Hcalls).
  split; [exact Hres | exact Hcalls].
Defined.

Lemma stagnation_below_minimum_breaks_witness :
  exists st,
    demo_at_round 40 5 (Loop.initial Z 0) = Some st /\
    calls (log (snd (demo_accumulate 40 12 0))) = calls (log st) /\
    fst (demo_accumulate 40 12 0) =
      (Demo.count_images (world (snd (demo_accumulate 40 12 0))),
       100 <=? Demo.count_images (world (snd (demo_accumulate 40 12 0)))).
Proof.
  eexists. split; [reflexivity|].
  pose proof (stagnation_below_minimum_breaks Z Demo.count_images
                (Demo.crawl 40) (py "cats") 100 66 80 0 12 5%nat _
                eq_refl ltac:(cbn; lia) ltac:(cbn; lia) ltac:(cbn; lia))
    as (Hcalls & Hres & _).
  split; [exact Hcalls | exact Hres].
Defined.

Lemma zero_images_no_archive_witness :
  ~ In make_zip_from_folder
      (demo_on_click 0 (py "cats") 100 default_min_fraction 12 0).
Proof.
  refine (proj1 (zero_images_no_archive (fun _ => false) Z Demo.count_images
                   (Demo.crawl 0) (py "cats") 100 default_min_fraction 12 0
                   false _ _)).
  vm_compute. reflexivity.
Defined.

End Runs.

(** ** More about the sanitizer *)

Section SanitizerShape.

Import Sanitizer SanitizerSpec Shape.
Local Open Scope N_scope.

Variable uni_alnum : codepoint -> bool.

Local Abbreviation safe_name := (Sanitizer.safe_name uni_alnum).
Local Abbreviation safe_core := (Sanitizer.safe_core uni_alnum).
Local Abbreviation kept := (Shape.kept uni_alnum).
Local Abbreviation tidy := (Shape.tidy uni_alnum).
Local Abbreviation non_space := (fun c : codepoint => negb (is_space c)).

#[local] Arguments is_space : simpl never.
#[local] Arguments is_word : simpl never.

Lemma single_spaced_space b s c :
  single_spaced b s = true -> In c s -> is_space c = true -> c = 0x20.
Proof.
  revert b. induction s as [|d t IH]; intros b Hs Hin Hc; [destruct Hin|].
  rewrite single_spaced_cons in Hs.
  destruct Hin as [->|Hin].
  - rewrite Hc in Hs. apply andb_prop in Hs as [Hs _].
    apply andb_prop in Hs as [_ Hs]. now apply N.eqb_eq in Hs.
  - destruct (is_space d).
    + apply andb_prop in Hs as [_ Hs]. eauto.
    + eauto.
Qed.

Lemma rev_rstrip s : rev (rstrip s) = lstrip (rev s).
Proof. now rewrite rstrip_rev, rev_involutive. Qed.

Lemma rstrip_fixed s : no_lead (rev s) = true -> rstrip s = s.
Proof.
  intros H. now rewrite rstrip_rev, (lstrip_fixed _ H), rev_involutive.
Qed.

Lemma safe_core_tidy s : tidy (safe_core s) = true.
Proof.
  unfold Shape.tidy.
  rewrite safe_core_single_spaced, safe_core_safe.
  unfold Sanitizer.safe_core, strip.
  rewrite rstrip_no_lead by apply lstrip_no_lead.
  now rewrite rev_rstrip, lstrip_no_lead.
Qed.

Lemma safe_name_tidy s : tidy (safe_name s) = true.
Proof.
  unfold Sanitizer.safe_name.
  pose proof (safe_core_tidy s) as H.
  destruct (Sanitizer.safe_core uni_alnum s); [reflexivity | exact H].
Qed.

Lemma tidy_fixed t : tidy t = true -> safe_core (Some t) = t.
Proof.
  unfold Shape.tidy. intros H.
  apply andb_prop in H as [H Hsafe]. apply andb_prop in H as [H Hsp].
  apply andb_prop in H as [Hl Hr].
  assert (Hs : strip t = t).
  { unfold strip. now rewrite (lstrip_fixed _ Hl), (rstrip_fixed _ Hr). }
  unfold Sanitizer.safe_core. cbn [or_empty]. rewrite Hs.
  rewrite re_sub_unsafe_filter, (remove_unsafe_fixed _ _ Hsafe).
  unfold re_sub_set_plus. now rewrite (single_spaced_fixed _ _ Hsp).
Qed.

(** *** What is kept *)

Lemma filter_non_space_lstrip s :
  filter non_space (lstrip s) = filter non_space s.
Proof.
  induction s as [|c t IH]; cbn; auto.
  destruct (is_space c) eqn:E; cbn; auto. now rewrite E.
Qed.

Lemma filter_non_space_rstrip s :
  filter non_space (rstrip s) = filter non_space s.
Proof.
  induction s as [|c t IH]; auto. cbn [rstrip filter]. rewrite <- IH.
  destruct (rstrip t) as [|d u]; [|reflexivity].
  destruct (is_space c) eqn:E; cbn; rewrite ?E; reflexivity.
Qed.

Lemma filter_non_space_collapse b s :
  filter non_space (re_sub_set_plus_from is_space (py " ") b s) =
  filter non_space s.
Proof.
  revert b. induction s as [|c t IH]; intros b; cbn; auto.
  destruct (is_space c) eqn:E; cbn.
  - destruct b; cbn; apply IH.
  - now rewrite E, IH.
Qed.

Lemma filter_non_space_remove s :
  filter non_space (remove_unsafe uni_alnum s) = filter kept s.
Proof.
  unfold remove_unsafe. induction s as [|c t IH]; cbn; auto.
  unfold Shape.kept, safe_char in *.
  destruct (is_space c) eqn:E; cbn.
  - rewrite orb_true_r. cbn. now rewrite E.
  - rewrite orb_false_r.
    destruct (is_word uni_alnum c || (c =? hyphen)); cbn; [rewrite E|];
      now rewrite IH.
Qed.

Lemma filter_kept_lstrip s : filter kept (lstrip s) = filter kept s.
Proof.
  induction s as [|c t IH]; cbn; auto. unfold Shape.kept in *.
  destruct (is_space c) eqn:E; cbn; auto. now rewrite E.
Qed.

Lemma filter_kept_rstrip s : filter kept (rstrip s) = filter kept s.
Proof.
  induction s as [|c t IH]; auto. cbn [rstrip filter]. rewrite <- IH.
  destruct (rstrip t) as [|d u]; [|reflexivity].
  unfold Shape.kept. destruct (is_space c) eqn:E; cbn; rewrite ?E; reflexivity.
Qed.

Lemma safe_core_kept s :
  filter non_space (safe_core s) = filter kept (or_empty s).
Proof.
  unfold Sanitizer.safe_core, strip, re_sub_set_plus.
  rewrite filter_non_space_rstrip, filter_non_space_lstrip.
  rewrite filter_non_space_collapse, re_sub_unsafe_filter.
  rewrite filter_non_space_remove.
  now rewrite filter_kept_rstrip, filter_kept_lstrip.
Qed.

Lemma no_lead_filter s :
  no_lead s = true -> filter non_space s = [] -> s = [].
Proof.
  destruct s as [|c t]; cbn; auto.
  intros H. rewrite H. discriminate.
Qed.

(** *** Lengths *)

Lemma rstrip_length s : (List.length (rstrip s) <= List.length s)%nat.
Proof.
  induction s as [|c t IH]; cbn; auto.
  destruct (rstrip t); [destruct (is_space c)|]; cbn in *; lia.
Qed.

Lemma collapse_length b s :
  (List.length (re_sub_set_plus_from is_space (py " ") b s)
   <= List.length s)%nat.
Proof.
  change (py " ") with [0x20].
  revert b. induction s as [|c t IH]; intros b; cbn; auto.
  pose proof (IH true). pose proof (IH false).
  destruct (is_space c); [destruct b|]; cbn; lia.
Qed.

(** *** Statements *)

(** X1: whatever the input, every character of the sanitized name is a
    word character, a hyphen or the space U+0020; none is a character
    with a meaning in a path (NUL, quote, asterisk, dot, slash, colon,
    angle bracket, question mark, backslash, bar), so "<name>.zip" names a
    file of the directory it is joined to. *)
Theorem safe_name_alphabet (s : option pystr) :
  Forall (fun c => (is_word uni_alnum c = true \/ c = hyphen \/ c = 0x20) /\
                   ~ In c reserved)
    (safe_name s).
Proof.
  pose proof (safe_name_tidy s) as H. unfold Shape.tidy in H.
  apply andb_prop in H as [H Hsafe]. apply andb_prop in H as [_ Hsp].
  rewrite forallb_forall in Hsafe. apply Forall_forall. intros c Hin.
  assert (Hc : is_word uni_alnum c = true \/ c = hyphen \/ c = 0x20).
  { specialize (Hsafe _ Hin). unfold safe_char in Hsafe.
    apply orb_prop in Hsafe as [Hsafe|Hh].
    - apply orb_prop in Hsafe as [Hw|Hs]; auto.
      right. right. eapply single_spaced_space; eauto.
    - right. left. now apply N.eqb_eq. }
  split; [exact Hc|].
  intros Hr. unfold reserved in Hr. cbn [In] in Hr.
  repeat (destruct Hr as [<-|Hr];
          [destruct Hc as [Hc|[Hc|Hc]]; cbv in Hc; discriminate|]).
  exact Hr.
Qed.

(** X2: the sanitized name is tidy (no whitespace in front or at the end,
    every whitespace a single U+0020 between two other characters, only
    safe characters), and the strings the sanitizer returns unchanged are
    exactly the non-empty tidy ones. *)
Theorem safe_name_fixed_points (s : option pystr) (t : pystr) :
  tidy (safe_name s) = true /\
  (safe_name (Some t) = t <-> t <> [] /\ tidy t = true).
Proof.
  split; [apply safe_name_tidy|]. split.
  - intros H. split.
    + rewrite <- H. unfold Sanitizer.safe_name.
      destruct (Sanitizer.safe_core uni_alnum (Some t)); discriminate.
    + rewrite <- H. apply safe_name_tidy.
  - intros [Hne Ht]. unfold Sanitizer.safe_name. rewrite (tidy_fixed _ Ht).
    destruct t; [contradiction | reflexivity].
Qed.


(** X4: the sanitized name is never longer than the input, the fallback
    of five characters apart. *)
Theorem safe_name_length (s : option pystr) :
  (List.length (safe_name s)
   <= Nat.max (List.length (or_empty s)) 5)%nat.
Proof.
  assert (Hcore : (List.length (safe_core s) <= List.length (or_empty s))%nat).
  { unfold Sanitizer.safe_core, strip, re_sub_set_plus.
    rewrite re_sub_unsafe_filter. unfold remove_unsafe.
    etransitivity; [apply rstrip_length|].
    etransitivity; [apply lstrip_length|].
    etransitivity; [apply collapse_length|].
    etransitivity; [apply filter_length_le|].
    etransitivity; [apply rstrip_length|]. apply lstrip_length. }
  unfold Sanitizer.safe_name.
  destruct (Sanitizer.safe_core uni_alnum s) as [|c r].
  - cbn. lia.
  - lia.
Qed.

End SanitizerShape.

(** ** More about the accumulation loop *)

Section LoopRuns.

Import Sanitizer Loop.
Local Open Scope Z_scope.

Variable World : Type.
Variable count_images : World -> Z.
Variable crawl : pystr -> Z -> Z -> World -> World.
Variable keyword : pystr.
Variable target min_needed round_batch_size : Z.

Local Abbreviation round :=
  (Loop.round World count_images crawl keyword target min_needed round_batch_size).
Local Abbreviation rounds :=
  (Loop.rounds World count_images crawl keyword target min_needed round_batch_size).
Local Abbreviation at_round :=
  (Loop.at_round World count_images crawl keyword target min_needed round_batch_size).
Local Abbreviation accumulate :=
  (Loop.accumulate World count_images crawl keyword target min_needed round_batch_size).
Local Abbreviation batch_size := (Loop.batch_size target round_batch_size).
Local Abbreviation stagnation := (Loop.stagnation World).
Local Abbreviation initial := (Loop.initial World).

Local Abbreviation bounded_stagnation :=
  (Loop.bounded_stagnation World min_needed).

Lemma rounds_result n st :
  fst (rounds n st) =
    (count_images (world (snd (rounds n st))),
     target <=? count_images (world (snd (rounds n st)))) /\
  exists pre,
    log (snd (rounds n st)) =
      pre ++ [Scanned (count_images (world (snd (rounds n st))))].
Proof.
  revert st. induction n as [|n IH]; intros st.
  - cbn. split; [reflexivity|]. now exists (log st).
  - cbn [Loop.rounds].
    destruct (round st) as [got exact st'|st'|st'] eqn:Er.
    + apply (round_return World count_images crawl keyword target min_needed
               round_batch_size) in Er
        as (Hg & _ & Hw & Hl & Hex).
      cbn [fst snd]. rewrite Hw, <- Hg. split.
      * destruct Hex as [[-> Ht]|(-> & Ht & _)]; f_equal; symmetry;
          [apply Z.leb_le | apply Z.leb_gt]; lia.
      * now exists (log st).
    + cbn. split; [reflexivity|]. now exists (log st').
    + apply IH.
Qed.

Lemma rounds_calls n st :
  exists ext,
    log (snd (rounds n st)) = log st ++ ext /\
    (List.length (calls ext) <= n)%nat /\
    chained (offset st) (calls ext) /\
    Forall (fun ob => Z.min round_batch_size 30 <= snd ob) (calls ext) /\
    keyed keyword ext.
Proof.
  unfold keyed.
  revert st. induction n as [|n IH]; intros st.
  - exists [Scanned (count_images (world st))]. cbn. repeat split; auto.
  - cbn [Loop.rounds].
    destruct (round st) as [got exact st'|st'|st'] eqn:Er.
    + apply (round_return World count_images crawl keyword target min_needed
               round_batch_size) in Er
        as (_ & _ & _ & Hl & _).
      exists [Scanned got]. cbn. rewrite Hl. repeat split; auto. lia.
    + apply (round_break World count_images crawl keyword target min_needed
               round_batch_size) in Er
        as (_ & _ & _ & _ & _ & Hl).
      exists [Scanned (count_images (world st));
              Scanned (count_images (world st'))].
      cbn. rewrite Hl, <- app_assoc. repeat split; auto. lia.
    + apply (round_continue World count_images crawl keyword target min_needed
               round_batch_size) in Er
        as (_ & Ho & _ & _ & _ & Hl).
      destruct (IH st') as (ext & Hlog & Hlen & Hch & Hall & Hkey).
      exists ([Scanned (count_images (world st));
               Crawled keyword (offset st)
                 (batch_size (count_images (world st)))] ++ ext).
      rewrite Hlog, Hl, <- app_assoc. split; [reflexivity|].
      cbn. rewrite Ho in Hch. repeat split; auto; try lia.
      constructor; auto. cbn. unfold Loop.batch_size. lia.
Qed.

Lemma chained_offsets_nonneg o cs :
  0 <= o -> chained o cs -> Forall (fun ob => 0 <= snd ob) cs ->
  Forall (fun ob => 0 <= fst ob) cs.
Proof.
  revert o. induction cs as [|[o1 b1] cs IH]; intros o Ho Hc Hall; auto.
  destruct Hc as [-> Hc]. inversion Hall; subst. cbn in *.
  constructor; [exact Ho|]. apply (IH (o + b1)); auto. lia.
Qed.

Lemma round_continue_guard st st' :
  round st = Continue st' ->
  stagnant_rounds st' <= 3 /\
  (min_needed <= count_images (world st) -> stagnant_rounds st' <= 2).
Proof.
  unfold Loop.round.
  destruct (Z.leb_spec target (count_images (world st))) as [Ht|Ht];
    [discriminate|].
  destruct (stagnation st (count_images (world st))) as [sg la] eqn:Es.
  destruct (Z.leb_spec 3 sg) as [H3|H3];
    destruct (Z.leb_spec min_needed (count_images (world st))) as [Hm|Hm];
    cbn [andb]; try discriminate;
    destruct (Z.leb_spec 4 sg) as [H4|H4];
    destruct (Z.ltb_spec (count_images (world st)) min_needed) as [Hm'|Hm'];
    cbn [andb]; try discriminate;
    intros H; inversion H; subst; cbn; lia.
Qed.

Lemma bounded_stagnation_at_round n st st' :
  bounded_stagnation st -> at_round n st = Some st' -> bounded_stagnation st'.
Proof.
  revert st. induction n as [|n IH]; intros st Hinv; cbn [Loop.at_round].
  - intros H. now inversion H; subst.
  - destruct (round st) as [| |s1] eqn:Er; try discriminate.
    apply IH.
    pose proof (round_continue_guard _ _ Er) as [H3 H2].
    apply (round_continue World count_images crawl keyword target min_needed
             round_batch_size) in Er
      as (_ & _ & _ & _ & _ & Hl).
    split; [exact H3|].
    intros pre c Hs Hc. rewrite Hl, scans_app in Hs. cbn in Hs.
    apply app_inj_tail in Hs as [_ <-]. auto.
Qed.

(** X5: whatever way a run ends, the count it returns is the count of a
    scan made after the last call of the crawler, on the directory as the
    run leaves it, and the flag it returns is true exactly when that
    count is at least the target. *)
Theorem result_is_last_scan (max_rounds : Z) (w : World) :
  fst (accumulate max_rounds w) =
    (count_images (world (snd (accumulate max_rounds w))),
     target <=? count_images (world (snd (accumulate max_rounds w)))) /\
  exists pre,
    log (snd (accumulate max_rounds w)) =
      pre ++ [Scanned (count_images (world (snd (accumulate max_rounds w))))].
Proof. unfold Loop.accumulate. apply rounds_result. Qed.

(** X6: a run calls the crawler at most [max_rounds] times, not at all
    when [max_rounds] is zero or negative, and always with the keyword it
    was given. *)
Theorem calls_within_max_rounds (max_rounds : Z) (w : World) :
  (List.length (calls (log (snd (accumulate max_rounds w))))
   <= Z.to_nat max_rounds)%nat /\
  (max_rounds <= 0 -> calls (log (snd (accumulate max_rounds w))) = []) /\
  keyed keyword (log (snd (accumulate max_rounds w))).
Proof.
  unfold Loop.accumulate.
  destruct (rounds_calls (Z.to_nat max_rounds) (initial w))
    as (ext & Hlog & Hlen & _ & _ & Hkey).
  cbn [Loop.initial log app] in Hlog. rewrite Hlog.
  split; [exact Hlen|]. split; [|exact Hkey].
  intros Hm. replace (Z.to_nat max_rounds) with 0%nat in Hlen by lia.
  destruct (calls ext); [reflexivity | cbn in Hlen; lia].
Qed.

(** X7: with a positive cap every call of the crawler is made at a
    non-negative offset and asks for a positive number of images, at
    least min(cap, 30). *)
Theorem calls_are_well_formed (max_rounds : Z) (w : World) :
  0 < round_batch_size ->
  Forall (fun ob => 0 <= fst ob /\ 0 < snd ob /\
                    Z.min round_batch_size 30 <= snd ob)
    (calls (log (snd (accumulate max_rounds w)))).
Proof.
  intros Hcap. unfold Loop.accumulate.
  destruct (rounds_calls (Z.to_nat max_rounds) (initial w))
    as (ext & Hlog & _ & Hch & Hall & _).
  cbn [Loop.initial log offset app] in Hlog, Hch. rewrite Hlog.
  assert (Hnn : Forall (fun ob => 0 <= snd ob) (calls ext)).
  { eapply Forall_impl; [|exact Hall]. cbn. intros ob Hob. lia. }
  pose proof (chained_offsets_nonneg 0 _ ltac:(lia) Hch Hnn) as Hoff.
  rewrite Forall_forall in *. intros ob Hin.
  specialize (Hall _ Hin). specialize (Hoff _ Hin). cbn in *. lia.
Qed.

(** X8: a round never starts with the counter above 3, nor after more
    than four scans in a row that found the same count, nor after more
    than three such scans when that count is the minimum needed or more:
    the loop gives up before. *)
Theorem never_past_four_repeats (w : World) (N : nat) (st : state World) :
  at_round N (initial w) = Some st ->
  0 <= stagnant_rounds st <= 3 /\
  forall pre k c,
    scans (log st) = pre ++ repeat c (S k) ->
    (k <= 3)%nat /\ (min_needed <= c -> (k <= 2)%nat).
Proof.
  intros Hat.
  destruct (counts_repeats_at_round World count_images crawl keyword target
              min_needed round_batch_size _ _ _
              (counts_repeats_initial World w) Hat) as [H0 Hrep].
  assert (Hb0 : bounded_stagnation (initial w)).
  { split; [cbn; lia|]. intros pre c H. cbn in H. destruct pre; discriminate. }
  destruct (bounded_stagnation_at_round _ _ _ Hb0 Hat) as [H3 H2].
  split; [lia|]. intros pre k c Hs.
  destruct (Hrep _ _ _ Hs) as [_ Hk]. split; [lia|].
  intros Hc. cbn [repeat] in Hs. rewrite repeat_cons, app_assoc in Hs.
  specialize (H2 _ _ Hs Hc). lia.
Qed.

End LoopRuns.

(** ** The download directory on disk *)

Section FilesFacts.

Import Sanitizer Files.
Local Open Scope Z_scope.

Lemma node_induction (P : node -> Prop) :
  (forall d, P (File d)) ->
  (forall es, Forall (fun e => P (snd e)) es -> P (Dir es)) ->
  forall n, P n.
Proof.
  intros HF HD.
  refine (fix IH (n : node) : P n :=
            match n with
            | File d => HF d
            | Dir es =>
                HD es ((fix go (es : list (pystr * node))
                          : Forall (fun e => P (snd e)) es :=
                          match es with
                          | [] => Forall_nil _
                          | e :: es' => Forall_cons e (IH (snd e)) (go es')
                          end) es)
            end).
Qed.

Lemma files_pystr_eqb_eq a b : Files.pystr_eqb a b = true <-> a = b.
Proof.
  unfold Files.pystr_eqb. destruct (list_eq_dec N.eq_dec a b); split; auto.
  discriminate.
Qed.

(** *** Paths *)

Lemma lookup_cons es name p :
  lookup (Dir es) (name :: p) =
  match find_entry es name with
  | Some c => lookup c p
  | None => None
  end.
Proof.
  cbn [lookup]. induction es as [|e es IH]; cbn [find_entry]; auto.
  destruct (Files.pystr_eqb (fst e) name); auto.
Qed.

Lemma lookup_file d p : p <> [] -> lookup (File d) p = None.
Proof. destruct p; [contradiction | reflexivity]. Qed.

Lemma lookup_app n p q :
  lookup n (p ++ q) =
  match lookup n p with
  | Some m => lookup m q
  | None => None
  end.
Proof.
  revert n. induction p as [|name p IH]; intros n;
    [destruct n; reflexivity|].
  destruct n as [d|es]; [reflexivity|].
  cbn [app]. rewrite !lookup_cons. destruct (find_entry es name); auto.
Qed.

Lemma find_entry_in es name c :
  find_entry es name = Some c -> In (name, c) es.
Proof.
  induction es as [|[n0 c0] es IH]; cbn; [discriminate|].
  destruct (Files.pystr_eqb n0 name) eqn:E.
  - apply files_pystr_eqb_eq in E. intros H. inversion H; subst. auto.
  - auto.
Qed.

Lemma find_entry_distinct es e :
  NoDup (map fst es) -> In e es -> find_entry es (fst e) = Some (snd e).
Proof.
  induction es as [|e0 es IH]; cbn; [contradiction|].
  intros Hnd Hin. inversion Hnd as [|? ? Hnot Hnd']; subst.
  destruct Hin as [->|Hin].
  - replace (Files.pystr_eqb (fst e) (fst e)) with true
      by (symmetry; now apply files_pystr_eqb_eq).
    reflexivity.
  - destruct (Files.pystr_eqb (fst e0) (fst e)) eqn:E.
    + apply files_pystr_eqb_eq in E. exfalso. apply Hnot. rewrite E.
      now apply in_map.
    + auto.
Qed.

Lemma distinct_names_dir es :
  distinct_names (Dir es) <->
  NoDup (map fst es) /\ Forall (fun e => distinct_names (snd e)) es.
Proof.
  cbn [distinct_names]. split; intros [Hnd H]; split; auto.
  - clear Hnd. induction es as [|e es IH]; constructor; destruct H; auto.
  - clear Hnd. induction H; split; auto.
Qed.

Lemma lookup_distinct n p m :
  distinct_names n -> lookup n p = Some m -> distinct_names m.
Proof.
  revert n. induction p as [|name p IH]; intros n Hd.
  - destruct n; cbn; intros H; inversion H; subst; exact Hd.
  - destruct n as [d|es]; [discriminate|]. rewrite lookup_cons.
    destruct (find_entry es name) as [c|] eqn:E; [|discriminate].
    apply find_entry_in in E. apply distinct_names_dir in Hd as [_ Hd].
    rewrite Forall_forall in Hd. apply IH. exact (Hd _ E).
Qed.

(** *** The walk *)

Lemma os_walk_complete n root rel es :
  lookup n rel = Some (Dir es) ->
  In (root ++ rel, dir_names es, file_names es) (os_walk root n).
Proof.
  revert n root. induction rel as [|name rel IH]; intros n root.
  - destruct n; cbn; intros H; inversion H; subst.
    rewrite app_nil_r. now left.
  - destruct n as [d|es0]; [discriminate|]. rewrite lookup_cons.
    destruct (find_entry es0 name) as [c|] eqn:E; [|discriminate].
    intros H. cbn [os_walk]. right. apply in_flat_map.
    exists (name, c). split; [now apply find_entry_in|].
    cbn [fst snd]. specialize (IH c (root ++ [name]) H).
    now rewrite <- app_assoc in IH.
Qed.

Lemma os_walk_sound n : forall root r ds fs,
  distinct_names n -> In (r, ds, fs) (os_walk root n) ->
  exists rel es,
    r = root ++ rel /\ lookup n rel = Some (Dir es) /\
    ds = dir_names es /\ fs = file_names es.
Proof.
  induction n as [d|es IH] using node_induction; intros root r ds fs Hd Hin.
  - destruct Hin.
  - cbn [os_walk] in Hin. destruct Hin as [Hin|Hin].
    + inversion Hin; subst. exists [], es. rewrite app_nil_r. auto.
    + apply in_flat_map in Hin as (e & He & Hin).
      apply distinct_names_dir in Hd as [Hnd Hd].
      rewrite Forall_forall in IH, Hd.
      destruct (IH _ He _ _ _ _ (Hd _ He) Hin) as (rel & es' & -> & Hl & -> & ->).
      exists (fst e :: rel), es'. rewrite <- app_assoc. split; [reflexivity|].
      rewrite lookup_cons, (find_entry_distinct _ _ Hnd He). auto.
Qed.

Lemma lookup_nil n : lookup n [] = Some n.
Proof. destruct n; reflexivity. Qed.

Lemma make_zip_entries n :
  make_zip_from_folder (Some n) = zip_entries n [] n.
Proof.
  unfold make_zip_from_folder, zip_entries. apply flat_map_ext.
  intros [[r ds] fs]. reflexivity.
Qed.

Lemma flat_map_nested {A B C} (f : B -> list C) (g : A -> list B) l :
  flat_map f (flat_map g l) = flat_map (fun x => flat_map f (g x)) l.
Proof.
  induction l as [|a l IH]; cbn; auto. now rewrite flat_map_app, IH.
Qed.

Lemma zip_entries_dir top root es :
  zip_entries top root (Dir es) =
  map (fun fn => (root ++ [fn], read top (root ++ [fn]))) (file_names es)
  ++ flat_map (fun e => zip_entries top (root ++ [fst e]) (snd e)) es.
Proof.
  unfold zip_entries. cbn [os_walk flat_map fst snd]. f_equal.
  apply flat_map_nested.
Qed.

(** *** The archive *)

(** X9: when the names of every directory are distinct, the archive has
    an entry (p, d) exactly when the path p, below the folder, leads to a
    regular file with the bytes d: every file at every depth, under its
    relative path, and no directory, empty or not. *)
Theorem archive_holds_the_files (n : node) (p : path) (d : list Byte.byte) :
  distinct_names n ->
  (In (p, d) (make_zip_from_folder (Some n)) <->
   p <> [] /\ lookup n p = Some (File d)).
Proof.
  intros Hd. rewrite make_zip_entries. unfold zip_entries. split.
  - intros Hin. apply in_flat_map in Hin as ([[r ds] fs] & Hw & Hin).
    cbn [fst snd] in Hin. apply in_map_iff in Hin as (fn & Heq & Hfn).
    inversion Heq; subst. clear Heq.
    destruct (os_walk_sound _ _ _ _ _ Hd Hw) as (rel & es & Hr & Hl & _ & ->).
    cbn [app] in Hr. subst r.
    apply in_map_iff in Hfn as (e & <- & He).
    apply filter_In in He as [He Hf].
    destruct (snd e) as [d'|] eqn:Ee; [|discriminate].
    pose proof (lookup_distinct _ _ _ Hd Hl) as Hdes.
    apply distinct_names_dir in Hdes as [Hnd _].
    assert (Hp : lookup n (rel ++ [fst e]) = Some (File d')).
    { rewrite lookup_app, Hl, lookup_cons.
      rewrite (find_entry_distinct _ _ Hnd He), Ee. reflexivity. }
    split; [now destruct rel|].
    unfold read. now rewrite Hp.
  - intros [Hne Hl].
    destruct (exists_last Hne) as (rel & fn & ->).
    rewrite lookup_app in Hl.
    destruct (lookup n rel) as [[d0|es]|] eqn:Er; try discriminate.
    rewrite lookup_cons in Hl.
    destruct (find_entry es fn) as [c|] eqn:Ef; [|discriminate].
    rewrite lookup_nil in Hl. inversion Hl; subst c.
    apply in_flat_map. exists (rel, dir_names es, file_names es).
    split; [exact (os_walk_complete n [] rel es Er)|].
    cbn [fst snd]. apply in_map_iff. exists fn. split.
    + unfold read. now rewrite lookup_app, Er, lookup_cons, Ef, lookup_nil.
    + apply find_entry_in in Ef. unfold file_names.
      apply in_map_iff. exists (fn, File d). split; [reflexivity|].
      apply filter_In. auto.
Qed.

(** *** Counting *)

Lemma count_flat_map2 {A B C} (P : B -> bool) (Q : C -> bool)
    (f1 f2 : A -> list B) (g : A -> list C) (l : list A) :
  Forall (fun a => (List.length (filter P (f1 a))
                    + List.length (filter P (f2 a)))%nat
                   = List.length (filter Q (g a))) l ->
  (List.length (filter P (flat_map f1 l))
   + List.length (filter P (flat_map f2 l)))%nat
  = List.length (filter Q (flat_map g l)).
Proof.
  induction 1 as [|a l Ha _ IH]; [reflexivity|].
  cbn [flat_map]. rewrite !filter_app, !length_app. lia.
Qed.

Lemma count_flat_map {A B C} (P : B -> bool) (Q : C -> bool)
    (f : A -> list B) (g : A -> list C) (l : list A) :
  Forall (fun a => List.length (filter P (f a))
                   = List.length (filter Q (g a))) l ->
  List.length (filter P (flat_map f l))
  = List.length (filter Q (flat_map g l)).
Proof.
  induction 1 as [|a l Ha _ IH]; [reflexivity|].
  cbn [flat_map]. rewrite !filter_app, !length_app. lia.
Qed.

Lemma file_entries_flat_map {B} (mk : pystr -> B) es :
  map mk (file_names es) =
  flat_map (fun e => if is_file (snd e) then [mk (fst e)] else []) es.
Proof.
  unfold file_names. induction es as [|e es IH]; [reflexivity|].
  cbn [filter flat_map]. destruct (is_file (snd e)); cbn; now rewrite IH.
Qed.

Section Runtime.

Variable suffix : pystr -> pystr.
Variable lower : pystr -> pystr.

Local Abbreviation is_image := (Files.is_image suffix lower).
Local Abbreviation counted := (Files.counted suffix lower).
Local Abbreviation count_images := (Files.count_images suffix lower).

Lemma counted_cons f l :
  List.length (filter counted (f :: l)) =
  ((if counted f then 1 else 0) + List.length (filter counted l))%nat.
Proof. cbn [filter]. now destruct (counted f). Qed.

Lemma counted_root_free n : forall r1 r2,
  List.length (filter counted (rglob r1 n)) =
  List.length (filter counted (rglob r2 n)).
Proof.
  induction n as [d|es IH] using node_induction; intros r1 r2; auto.
  cbn [rglob].
  apply count_flat_map.
  eapply Forall_impl; [|exact IH]. cbn beta. intros e He.
  rewrite !counted_cons.
  rewrite (He (r1 ++ [fst e]) (r2 ++ [fst e])). f_equal.
  unfold Files.counted. cbn [fst snd]. now rewrite !last_last.
Qed.

Lemma count_zip_rglob top n : forall root,
  List.length
    (filter (fun e => is_image (last (fst e) [])) (zip_entries top root n)) =
  List.length (filter counted (rglob root n)).
Proof.
  induction n as [d|es IH] using node_induction; intros root; auto.
  rewrite zip_entries_dir, file_entries_flat_map. cbn [rglob].
  rewrite filter_app, length_app.
  apply count_flat_map2.
  eapply Forall_impl; [|exact IH]. cbn beta. intros e He.
  rewrite counted_cons, <- (He (root ++ [fst e])).
  unfold Files.counted. cbn [fst snd].
  destruct (snd e) as [d|es'].
  - cbn [is_file andb]. f_equal. cbn [filter fst]. unfold path, pystr.
    match goal with
    | |- context [if ?b then _ else _] => destruct b
    end; reflexivity.
  - reflexivity.
Qed.

(** X10: the count is the number of archive entries whose name has an
    image extension, whatever the folder holds, so the archive built from
    the folder has at least as many entries as [count_images] reports;
    a folder that is missing, or is a regular file, counts 0 and gives an
    empty archive. *)
Theorem count_is_image_entries (folder : option node) :
  count_images folder =
    Z.of_nat (List.length
                (filter (fun e => is_image (last (fst e) []))
                   (make_zip_from_folder folder))) /\
  0 <= count_images folder
    <= Z.of_nat (List.length (make_zip_from_folder folder)) /\
  (forall d, (folder = None \/ folder = Some (File d)) ->
     count_images folder = 0 /\ make_zip_from_folder folder = []).
Proof.
  assert (H : count_images folder =
              Z.of_nat (List.length
                          (filter (fun e => is_image (last (fst e) []))
                             (make_zip_from_folder folder)))).
  { destruct folder as [n|]; [|reflexivity].
    rewrite make_zip_entries, count_zip_rglob. reflexivity. }
  split; [exact H|]. split.
  - rewrite H. split; [apply Nat2Z.is_nonneg|].
    apply Nat2Z.inj_le, filter_length_le.
  - intros d [->| ->]; split; reflexivity.
Qed.

(** X11: the count adds up over the entries of a directory, counts a
    file by its own name alone, and counts a sub-directory as its
    content, whatever the sub-directory is called and however deep it
    is; so adding entries to a directory never lowers the count. *)
Theorem count_adds_up (es1 es2 es : list (pystr * node)) (name : pystr)
    (d : list Byte.byte) :
  count_images (Some (Dir (es1 ++ es2))) =
    count_images (Some (Dir es1)) + count_images (Some (Dir es2)) /\
  count_images (Some (Dir [(name, File d)])) =
    (if is_image name then 1 else 0) /\
  count_images (Some (Dir [(name, Dir es)])) = count_images (Some (Dir es)) /\
  count_images (Some (Dir es1)) <= count_images (Some (Dir (es1 ++ es2))).
Proof.
  assert (Happ : count_images (Some (Dir (es1 ++ es2))) =
                 count_images (Some (Dir es1)) + count_images (Some (Dir es2))).
  { unfold Files.count_images. cbn [rglob].
    rewrite flat_map_app, filter_app, length_app, Nat2Z.inj_add.
    reflexivity. }
  split; [exact Happ|]. split; [|split].
  - unfold Files.count_images. cbn [rglob flat_map app fst snd filter].
    unfold Files.counted. cbn [fst snd is_file andb last].
    now destruct (is_image name).
  - unfold Files.count_images. cbn [flat_map fst snd app].
    change (rglob [] (Dir [(name, Dir es)]))
      with ((([] ++ [name], Dir es) :: rglob ([] ++ [name]) (Dir es)) ++ []).
    rewrite app_nil_r. cbn [filter]. unfold Files.counted at 1.
    cbn [fst snd is_file andb].
    now rewrite (counted_root_free (Dir es) ([] ++ [name]) []).
  - rewrite Happ. unfold Files.count_images at 3.
    pose proof (Nat2Z.is_nonneg
                  (List.length (filter counted (rglob [] (Dir es2))))).
    lia.
Qed.

End Runtime.

End FilesFacts.

(** ** Image extensions *)

Section Extensions.

Import Sanitizer Files.

Variable uni_lower : pystr -> pystr.

Lemma rfind_dot_none e : ~ In dot e -> rfind_dot e = None.
Proof.
  induction e as [|c e IH]; cbn [rfind_dot]; auto.
  intros H. rewrite IH by (intros Hin; apply H; now right).
  destruct (N.eqb_spec c dot) as [->|]; auto.
  exfalso. apply H. now left.
Qed.

Lemma rfind_dot_last stem e :
  ~ In dot e -> rfind_dot (stem ++ dot :: e) = Some (List.length stem).
Proof.
  intros H. induction stem as [|c stem IH]; cbn [app rfind_dot List.length].
  - now rewrite (rfind_dot_none _ H).
  - now rewrite IH.
Qed.

Lemma path_suffix_ext stem e :
  stem <> [] -> e <> [] -> ~ In dot e ->
  path_suffix (stem ++ dot :: e) = dot :: e.
Proof.
  intros Hs He Hd. unfold path_suffix. rewrite (rfind_dot_last _ _ Hd).
  rewrite length_app. cbn [List.length].
  replace (0 <? List.length stem)%nat with true
    by (symmetry; apply Nat.ltb_lt; destruct stem; [contradiction | cbn; lia]).
  replace (S (List.length stem)
           <? List.length stem + S (List.length e))%nat with true
    by (symmetry; apply Nat.ltb_lt; destruct e; [contradiction | cbn; lia]).
  cbn [andb]. rewrite skipn_app, skipn_all, Nat.sub_diag. reflexivity.
Qed.

Lemma is_image_in suffix lower name :
  is_image suffix lower name = true <-> In (lower (suffix name)) exts.
Proof.
  unfold is_image. rewrite existsb_exists. split.
  - intros (x & Hx & Heq). apply files_pystr_eqb_eq in Heq. now subst.
  - intros H. exists (lower (suffix name)). split; [exact H|].
    now apply files_pystr_eqb_eq.
Qed.

(** X12: for a file name made of a stem that does not start with a dot,
    a dot, and an ASCII extension without a dot, the file is an image
    exactly when the extension, with its capitals turned into small
    letters, is one of jpg, jpeg, png, webp, bmp, gif, tiff: the letter
    case of the extension does not matter, and the stem does not
    either. *)
Theorem extension_case_is_ignored (c : codepoint) (stem e : pystr) :
  c <> dot -> e <> [] -> ~ In dot e -> forallb is_ascii e = true ->
  (is_image path_suffix (str_lower uni_lower) (c :: stem ++ dot :: e) = true
   <-> In (dot :: map ascii_lower e) exts).
Proof.
  intros Hc He Hd Ha. rewrite is_image_in.
  change (c :: stem ++ dot :: e) with ((c :: stem) ++ dot :: e).
  rewrite path_suffix_ext by (auto; discriminate).
  unfold str_lower. cbn [forallb]. rewrite Ha. reflexivity.
Qed.

End Extensions.

(** ** Outcomes of a click *)

Section Outcomes.

Import Sanitizer PyNum Loop Handler.
Local Open Scope Z_scope.

Variable uni_alnum : codepoint -> bool.
Variable World : Type.
Variable count_images : World -> Z.
Variable crawl : pystr -> Z -> Z -> World -> World.

Local Abbreviation on_click :=
  (Handler.on_click uni_alnum World count_images crawl).
Local Abbreviation safe_name := (Sanitizer.safe_name uni_alnum).

Lemma no_uncaught_in_log (l : list event) (tail : list action) :
  ~ In uncaught tail -> ~ In uncaught (map downloader l ++ tail).
Proof.
  intros Ht Hin. apply in_app_or in Hin as [Hin|Hin]; [|auto].
  apply in_map_iff in Hin as (e & He & _). discriminate.
Qed.

(** X13: for a target of 1 up to 2^53 - 1 and a fraction in [0.5, 1.0]
    a click never ends in an uncaught exception, and does one of four
    things: it turns the term down before any download; or it runs the
    loop, every call made with the sanitized term, and then reports the
    error of an empty folder (count 0), or warns (count below the
    threshold, flag false) and builds the archive, or builds the archive
    without a warning, the flag being true exactly when the count is at
    least the target. In the last three the temporary directory is
    removed last, and the archive is named after the sanitized term. *)
Theorem on_click_outcomes (query : pystr) (limit : Z) (mf : float)
    (max_rounds : Z) (w : World) :
  1 <= limit < 2 ^ 53 ->
  (0.5 <=? mf)%float = true -> (mf <=? 1)%float = true ->
  ~ In uncaught (on_click query limit mf max_rounds w) /\
  (on_click query limit mf max_rounds w =
     [st_error "Please enter a valid search term."; st_stop] \/
   exists l got mn,
     PyNum.min_needed limit mf = Some mn /\ 1 <= mn <= limit /\
     invalid_term (safe_name (Some query)) = false /\
     keyed (safe_name (Some query)) l /\
     (got = 0 /\
      on_click query limit mf max_rounds w =
        map downloader l ++
        [st_error "No images were downloaded. Try a broader query.";
         st_stop; rmtree]
      \/
      got <> 0 /\ got < mn /\
      on_click query limit mf max_rounds w =
        map downloader l ++
        [st_warning got mn; make_zip_from_folder; st_success got false;
         st_download_button (safe_name (Some query) ++ py ".zip"); rmtree]
      \/
      mn <= got /\
      on_click query limit mf max_rounds w =
        map downloader l ++
        [make_zip_from_folder; st_success got (limit <=? got);
         st_download_button (safe_name (Some query) ++ py ".zip"); rmtree])).
Proof.
  intros Hl Hlo Hhi.
  destruct (min_needed_le_target limit mf Hl Hlo Hhi) as (mn & Hmn & Hr).
  unfold Handler.on_click.
  destruct (invalid_term (safe_name (Some query))) eqn:Hv.
  - split; [|now left]. intros [H|[H|[]]]; discriminate.
  - unfold Loop.download_until_target. rewrite Hmn. unfold Loop.accumulate.
    destruct (rounds_result World count_images crawl
                (safe_name (Some query)) limit mn 80
                (Z.to_nat max_rounds) (Loop.initial World w)) as [Hres _].
    destruct (rounds_calls World count_images crawl
                (safe_name (Some query)) limit mn 80
                (Z.to_nat max_rounds) (Loop.initial World w))
      as (ext & Hlog & _ & _ & _ & Hkey).
    cbn [Loop.initial log app] in Hlog.
    destruct (Loop.rounds World count_images crawl (safe_name (Some query))
                limit mn 80 (Z.to_nat max_rounds) (Loop.initial World w))
      as [[got exact] st].
    cbn [fst snd] in Hres, Hlog. inversion Hres as [[Hgot Hexact]].
    rewrite <- Hgot in Hexact. rewrite <- Hgot. rewrite Hlog.
    destruct (Z.eqb_spec got 0) as [H0|H0].
    + split.
      * apply no_uncaught_in_log. intros [H|[H|[H|[]]]]; discriminate.
      * right. exists ext, got, mn. repeat split; auto; try lia.
    + destruct (Z.ltb_spec got mn) as [Hlt|Hge].
      * split.
        -- apply no_uncaught_in_log.
           intros [H|[H|[H|[H|[H|[]]]]]]; discriminate.
        -- right. exists ext, got, mn. repeat split; auto; try lia.
           right. left. repeat split; auto.
           replace (limit <=? got) with false
             by (symmetry; apply Z.leb_gt; lia).
           reflexivity.
      * split.
        -- apply no_uncaught_in_log.
           intros [H|[H|[H|[H|[]]]]]; discriminate.
        -- right. exists ext, got, mn. repeat split; auto; try lia.
Qed.

End Outcomes.

(** ** The threshold and the target; the archive and the count *)

Section Composition.

Import Sanitizer PyNum Loop Files.
Local Open Scope Z_scope.

(** X14: for a target of 1 up to 2^53 - 1 and a fraction in [0.5, 1.0]
    the threshold is at least 1 and at most the target, so a run that
    reaches the target is never classified as below the minimum. *)
Theorem threshold_within_target (target : Z) (mf : float) :
  1 <= target < 2 ^ 53 ->
  (0.5 <=? mf)%float = true -> (mf <=? 1)%float = true ->
  exists n, PyNum.min_needed target mf = Some n /\ 1 <= n <= target.
Proof. apply min_needed_le_target. Qed.

(** X15: when the world of the loop is the download folder and its count
    is [count_images], the count a run returns is non-negative and at
    most the number of entries of the archive that
    [make_zip_from_folder] builds from the folder as the run leaves
    it. *)
Theorem archive_covers_the_count (suffix lower : pystr -> pystr)
    (crawl : pystr -> Z -> Z -> option node -> option node)
    (keyword : pystr) (target min_needed cap max_rounds : Z)
    (w : option node) :
  0 <= fst (fst (Loop.accumulate (option node)
                   (Files.count_images suffix lower) crawl keyword target
                   min_needed cap max_rounds w))
    <= Z.of_nat (List.length
                   (make_zip_from_folder
                      (world (snd (Loop.accumulate (option node)
                                     (Files.count_images suffix lower) crawl
                                     keyword target min_needed cap
                                     max_rounds w))))).
Proof.
  unfold Loop.accumulate.
  destruct (rounds_result (option node) (Files.count_images suffix lower)
              crawl keyword target min_needed cap (Z.to_nat max_rounds)
              (Loop.initial (option node) w)) as [Hres _].
  rewrite Hres. cbn [fst].
  destruct (world _) as [n|]; [|cbn; lia].
  unfold Files.count_images.
  rewrite <- (count_zip_rglob suffix lower n n []), make_zip_entries.
  split; [apply Nat2Z.is_nonneg|]. apply Nat2Z.inj_le, filter_length_le.
Qed.

End Composition.

(** ** More runs on concrete inputs *)

Section MoreRuns.

Import Sanitizer PyNum Loop Handler DemoFiles.
Local Open Scope Z_scope.

Lemma calls_are_well_formed_witness :
  Forall (fun ob => 0 <= fst ob /\ 0 < snd ob /\ Z.min 80 30 <= snd ob)
    (calls (log (snd (Loop.accumulate Z Demo.count_images (Demo.crawl 70)
                        (py "cats") 100 66 80 12 0)))).
Proof.
  apply (calls_are_well_formed Z Demo.count_images (Demo.crawl 70)
           (py "cats") 100 66 80 12 0).
  lia.
Defined.

Lemma never_past_four_repeats_witness :
  exists st,
    Loop.at_round Z Demo.count_images (Demo.crawl 40) (py "cats") 100 66 80
      5 (Loop.initial Z 0) = Some st /\
    scans (log st) = [0] ++ repeat 40 4 /\
    0 <= stagnant_rounds st <= 3.
Proof.
  eexists. split; [reflexivity|]. split; [reflexivity|].
  exact (proj1 (never_past_four_repeats Z Demo.count_images (Demo.crawl 40)
                  (py "cats") 100 66 80 0 5%nat _ eq_refl)).
Defined.

Lemma archive_holds_the_files_witness :
  In ([py "more"; py "000002.PNG"], [Byte.x02])
    (Files.make_zip_from_folder (Some demo_folder)).
Proof.
  apply (archive_holds_the_files demo_folder [py "more"; py "000002.PNG"]
           [Byte.x02]).
  - cbn. repeat split; repeat constructor; cbn; intuition discriminate.
  - split; [discriminate | reflexivity].
Defined.

Example demo_folder_archive :
  Files.make_zip_from_folder (Some demo_folder) =
    [([py "000001.jpg"], [Byte.x01]);
     ([py "notes.txt"], []);
     ([py "more"; py "000002.PNG"], [Byte.x02])] /\
  Files.count_images Files.path_suffix (Files.str_lower (fun s => s))
    (Some demo_folder) = 2.
Proof. split; reflexivity. Qed.

Lemma extension_case_is_ignored_witness :
  Files.is_image Files.path_suffix (Files.str_lower (fun s => s))
    (py "IMG_1.JpEg") = true.
Proof.
  apply (extension_case_is_ignored (fun s => s) 0x49%N (py "MG_1") (py "JpEg")).
  - discriminate.
  - discriminate.
  - cbn. intuition discriminate.
  - reflexivity.
  - cbn. auto 10.
Defined.

Lemma on_click_outcomes_witness :
  ~ In uncaught
      (Handler.on_click (fun _ => false) Z Demo.count_images (Demo.crawl 40)
         (py "cats") 100 default_min_fraction 12 0).
Proof.
  apply (on_click_outcomes (fun _ => false) Z Demo.count_images
           (Demo.crawl 40) (py "cats") 100 default_min_fraction 12 0).
  - split; [lia | reflexivity].
  - reflexivity.
  - reflexivity.
Defined.

Lemma threshold_within_target_witness :
  exists n, PyNum.min_needed 100 default_min_fraction = Some n /\ 1 <= n <= 100.
Proof.
  apply (threshold_within_target 100 default_min_fraction);
    [split; [lia | reflexivity] | reflexivity | reflexivity].
Defined.

End MoreRuns.
